(** * Brain-mask refinement of niworkflows: [refine_aseg] and [grow_mask]

    Shallow embedding of [niworkflows/interfaces/freesurfer.py], functions
    [refine_aseg] and [grow_mask], together with the parts of numpy,
    scikit-image and scipy.ndimage they call.

    Conventions.
    - A numpy array of rank 3 is a shape and a flat, C-ordered buffer.
    - Integer label volumes hold [Z]; [astype(np.uint8)] reduces modulo 256.
    - Intensity volumes hold exact rationals [Q]; rounding of floating-point
      arithmetic is outside the model.
    - A Python exception ([IndexError]) is [None]. *)

From Stdlib Require Import Floats.
From Stdlib Require Import ZArith QArith Qabs Qminmax Lia Lqa Ascii String.
From stdpp Require Import base option list strings gmap.

Local Open Scope nat_scope.

(** ** numpy arrays of rank 3 *)

Definition shape3 : Type := nat * nat * nat.
Definition coord : Type := nat * nat * nat.
Definition offset : Type := Z * Z * Z.

Record ndarray (A : Type) : Type := NdArray { shape : shape3; data : list A }.
Arguments NdArray {A} _ _.
Arguments shape {A} _.
Arguments data {A} _.

#[global] Instance ndarray_eq_dec {A} `{EqDecision A} : EqDecision (ndarray A).
Proof. solve_decision. Defined.

Definition size (sh : shape3) : nat :=
  let '(nx, ny, nz) := sh in nx * ny * nz.

(** C-order position of a voxel in the buffer, and its inverse. *)
Definition ravel (sh : shape3) (p : coord) : nat :=
  let '(_, ny, nz) := sh in
  let '(i, j, k) := p in (i * ny + j) * nz + k.

Definition unravel (sh : shape3) (n : nat) : coord :=
  let '(_, ny, nz) := sh in
  (n / (ny * nz), (n / nz) mod ny, n mod nz).

Definition in_bounds (sh : shape3) (p : coord) : bool :=
  let '(nx, ny, nz) := sh in
  let '(i, j, k) := p in
  (i <? nx) && (j <? ny) && (k <? nz).

(** [np.ndindex] over the shape: every index of the grid, in C order. *)
Definition ndindex (sh : shape3) : list coord :=
  unravel sh <$> seq 0 (size sh).

(** An array is well formed when its buffer has one cell per voxel; every
    numpy array is. *)
Definition wf {A} (v : ndarray A) : Prop :=
  length (data v) = size (shape v).

Definition tabulate {A} (sh : shape3) (f : coord → A) : ndarray A :=
  NdArray sh (f <$> ndindex sh).

(** [v[i, j, k]] for non-negative indices; [None] is numpy's IndexError. *)
Definition getitem {A} (v : ndarray A) (p : coord) : option A :=
  if in_bounds (shape v) p then data v !! ravel (shape v) p else None.

(** [v[i, j, k] = x], in place. *)
Definition setitem {A} (v : ndarray A) (p : coord) (x : A) : option (ndarray A) :=
  if in_bounds (shape v) p
  then Some (NdArray (shape v) (<[ravel (shape v) p := x]> (data v)))
  else None.

(** Elementwise map: comparisons, [astype], [copy]. *)
Definition amap {A B} (f : A → B) (v : ndarray A) : ndarray B :=
  NdArray (shape v) (f <$> data v).

(** [v[cond(v)] = x]: assignment through a mask computed from [v] itself. *)
Definition where_set {A} (cond : A → bool) (x : A) (v : ndarray A) : ndarray A :=
  amap (λ y, if cond y then x else y) v.

(** [v[mask] = x] with a boolean mask array: numpy raises IndexError unless
    the mask has the shape of [v]. *)
Definition putmask {A} (v : ndarray A) (mask : ndarray bool) (x : A)
  : option (ndarray A) :=
  if decide (shape mask = shape v)
  then Some (NdArray (shape v)
               (zip_with (λ y (m : bool), if m then x else y) (data v) (data mask)))
  else None.

(** [np.argwhere(cond(v))]: indices of the voxels satisfying [cond], C order. *)
Definition argwhere {A} (cond : A → bool) (v : ndarray A) : list coord :=
  filter (λ p, from_option cond false (getitem v p) = true) (ndindex (shape v)).

(** [np.zeros_like(v, dtype=np.uint8)] *)
Definition zeros_like {A} (v : ndarray A) : ndarray Z :=
  NdArray (shape v) (replicate (size (shape v)) 0%Z).

(** numpy truth value of a cell, as taken by the morphology routines. *)
Class Truthy (A : Type) := truthy : A → bool.
#[global] Instance truthy_bool : Truthy bool := λ b, b.
#[global] Instance truthy_Z : Truthy Z := λ x, negb (x =? 0)%Z.

(** [astype(np.uint8)] of an integer array and of a boolean array. *)
Definition astype_uint8 (v : ndarray Z) : ndarray Z := amap (λ x, x mod 256)%Z v.
Definition bool_astype_uint8 (v : ndarray bool) : ndarray Z := amap Z.b2z v.

(** ** Basic slicing *)

(** Python's normalisation of one slice bound against an axis of length [n]
    (step 1): a negative bound counts from the end, and the result is
    clamped to [0, n]. *)
Definition slice_bound (n : nat) (b : Z) : Z :=
  if (b <? 0)%Z then Z.max (b + Z.of_nat n) 0 else Z.min b (Z.of_nat n).

(** Indices selected by [start:stop] on an axis of length [n]. *)
Definition slice_indices (n : nat) (start stop : Z) : list nat :=
  let s := slice_bound n start in
  let e := slice_bound n stop in
  seq (Z.to_nat s) (Z.to_nat (e - s)).

(** [v[a0:b0, a1:b1, a2:b2]] *)
Definition slice3 {A} (v : ndarray A) (r0 r1 r2 : Z * Z) : ndarray A :=
  let '(nx, ny, nz) := shape v in
  let i0 := slice_indices nx r0.1 r0.2 in
  let i1 := slice_indices ny r1.1 r1.2 in
  let i2 := slice_indices nz r2.1 r2.2 in
  NdArray (length i0, length i1, length i2)
          (omap (getitem v) (i ← i0; j ← i1; k ← i2; [(i, j, k)])).

(** ** scikit-image and scipy.ndimage binary morphology *)

(** [skimage.morphology.ball(radius)]: the voxels of the cube of side
    [2 * radius + 1] whose squared distance to the centre is at most
    [radius * radius]. *)
Definition ball (radius : nat) : ndarray Z :=
  let n := 2 * radius + 1 in
  let r := Z.of_nat radius in
  tabulate (n, n, n) (λ '(i, j, k),
    let z := (Z.of_nat i - r)%Z in
    let y := (Z.of_nat j - r)%Z in
    let x := (Z.of_nat k - r)%Z in
    Z.b2z (x * x + y * y + z * z <=? r * r)%Z).

(** Offsets of the true cells of a structuring element from its centre
    (scipy: centre at [shape // 2], origin 0). *)
Definition footprint_offsets (selem : ndarray Z) : list offset :=
  let '(nx, ny, nz) := shape selem in
  (λ '(i, j, k), (Z.of_nat i - Z.of_nat (nx / 2),
                  Z.of_nat j - Z.of_nat (ny / 2),
                  Z.of_nat k - Z.of_nat (nz / 2))%Z) <$> argwhere truthy selem.

Definition to_coord (sh : shape3) (q : offset) : option coord :=
  let '(nx, ny, nz) := sh in
  let '(x, y, z) := q in
  if ((0 <=? x) && (x <? Z.of_nat nx) && (0 <=? y) && (y <? Z.of_nat ny)
      && (0 <=? z) && (z <? Z.of_nat nz))%Z
  then Some (Z.to_nat x, Z.to_nat y, Z.to_nat z)
  else None.

(** Truth value read at a signed position; [border] outside the array. *)
Definition peek {A} `{Truthy A} (v : ndarray A) (border : bool) (q : offset) : bool :=
  match to_coord (shape v) q with
  | Some p => from_option truthy false (getitem v p)
  | None => border
  end.

Definition shift (p : coord) (o : offset) : offset :=
  let '(i, j, k) := p in
  let '(a, b, c) := o in
  (Z.of_nat i + a, Z.of_nat j + b, Z.of_nat k + c)%Z.

Definition unshift (p : coord) (o : offset) : offset :=
  let '(i, j, k) := p in
  let '(a, b, c) := o in
  (Z.of_nat i - a, Z.of_nat j - b, Z.of_nat k - c)%Z.

(** [scipy.ndimage.binary_erosion(input, structure, border_value=border)] *)
Definition ndi_binary_erosion {A} `{Truthy A}
    (input : ndarray A) (structure : list offset) (border : bool) : ndarray bool :=
  tabulate (shape input)
    (λ p, forallb (λ o, peek input border (shift p o)) structure).

(** [scipy.ndimage.binary_dilation(input, structure, border_value=border)] *)
Definition ndi_binary_dilation {A} `{Truthy A}
    (input : ndarray A) (structure : list offset) (border : bool) : ndarray bool :=
  tabulate (shape input)
    (λ p, existsb (λ o, peek input border (unshift p o)) structure).

(** One masked dilation: cells outside [mask] keep their value. *)
Definition dilate_masked (tmp mask : ndarray bool) (structure : list offset)
    (border : bool) : ndarray bool :=
  tabulate (shape tmp)
    (λ p, if from_option id false (getitem mask p)
          then existsb (λ o, peek tmp border (unshift p o)) structure
          else from_option id false (getitem tmp p)).

(** [binary_dilation(..., iterations=-1, mask=mask)]: repeat until an
    iteration changes nothing. *)
Fixpoint dilate_until_stable (fuel : nat) (tmp mask : ndarray bool)
    (structure : list offset) (border : bool) : ndarray bool :=
  match fuel with
  | O => tmp
  | S fuel' =>
      let out := dilate_masked tmp mask structure border in
      if decide (out = tmp) then out
      else dilate_until_stable fuel' out mask structure border
  end.

(** [scipy.ndimage.binary_fill_holes(input, structure)]: flood the
    background from outside the array, and return what the flood misses. *)
Definition binary_fill_holes {A} `{Truthy A}
    (input : ndarray A) (selem : ndarray Z) : ndarray bool :=
  let mask := amap (λ x, negb (truthy x)) input in
  let tmp := tabulate (shape mask) (λ _, false) in
  let output :=
    dilate_until_stable (S (size (shape mask))) tmp mask
      (footprint_offsets selem) true in
  amap negb output.

(** scikit-image wrappers: dilation pads with False, erosion with True. *)
Definition binary_dilation {A} `{Truthy A} (image : ndarray A) (selem : ndarray Z)
  : ndarray bool :=
  ndi_binary_dilation image (footprint_offsets selem) false.

Definition binary_erosion {A} `{Truthy A} (image : ndarray A) (selem : ndarray Z)
  : ndarray bool :=
  ndi_binary_erosion image (footprint_offsets selem) true.

Definition binary_closing {A} `{Truthy A} (image : ndarray A) (selem : ndarray Z)
  : ndarray bool :=
  let dilated := binary_dilation image selem in
  binary_erosion dilated selem.

Definition binary_opening {A} `{Truthy A} (image : ndarray A) (selem : ndarray Z)
  : ndarray bool :=
  let eroded := binary_erosion image selem in
  binary_dilation eroded selem.

(** ** [refine_aseg] *)

(** The first three statements of [refine_aseg]:
    [bmask = aseg.copy(); bmask[bmask > 0] = 1; bmask = bmask.astype(np.uint8)]. *)
Definition binarize (aseg : ndarray Z) : ndarray Z :=
  let bmask := aseg in
  let bmask := where_set (λ x, 0 <? x)%Z 1%Z bmask in
  astype_uint8 bmask.

Definition refine_aseg (aseg : ndarray Z) (ball_size : nat) : ndarray Z :=
  let bmask := binarize aseg in
  let selem := ball ball_size in
  let newmask := binary_closing bmask selem in
  let newmask :=
    bool_astype_uint8 (binary_fill_holes (bool_astype_uint8 newmask) selem) in
  astype_uint8 newmask.

(** ** Window statistics, in exact arithmetic *)

Definition Qltb (x y : Q) : bool := negb (Qle_bool y x).

Definition Qsum (l : list Q) : Q := foldr Qplus 0%Q l.

(** [l.mean()] *)
Definition mean (l : list Q) : Q := (Qsum l / inject_Z (Z.of_nat (length l)))%Q.

(** Square of [l.std()] (numpy's default, [ddof = 0]). *)
Definition variance (l : list Q) : Q :=
  let mu := mean l in mean ((λ x, (x - mu) * (x - mu))%Q <$> l).

(** The floor [1.0e-5] put under [sigma]: the binary64 number that the
    literal denotes, [5902958103587057 * 2^-69], a little above 1/100000. *)
Definition sigma_floor : Q := 5902958103587057 # 590295810358705651712.

(** [abs(x - mu) / max(std, 1.0e-5) < zval], with [var] the square of [std].
    The denominator is positive and the quotient is not negative, so the
    comparison fails for [zval <= 0] and otherwise is that of the squares;
    written so, it needs no square root and stays in [Q].
    The operations are exact here.  The source rounds the mean, the
    deviation, the difference and the quotient to the precision of its
    arrays, so the two tests can differ when the z-score lies within
    rounding distance of [zval] (see [zstat_binary64]). *)
Definition zstat_below (x mu var zval : Q) : bool :=
  Qltb 0 zval
  && Qltb ((x - mu) * (x - mu))
          (zval * zval * Qmax var (sigma_floor * sigma_floor)).

(** ** The test in binary64 *)

(** The exact value of a finite binary64 number. *)
Definition Q_of_float (f : float) : Q :=
  match Prim2SF f with
  | S754_finite s m e =>
      let v := (inject_Z (Z.pos m) * 2 ^ e)%Q in if s then (- v)%Q else v
  | _ => 0%Q
  end.

(** [abs(x - mu) / sigma < zval] on binary64 numbers, as the source computes
    it on arrays of float64: every operation rounded to nearest. *)
Definition zstat_binary64 (x mu sigma zval : float) : bool :=
  (abs (x - mu) / sigma <? zval)%float.

(** ** [grow_mask] *)

(** The caller's array objects, three distinct arrays. [grow_mask] receives
    references to them, so it is a function from their state before the
    call to the returned mask and their state after it. *)
Record Inputs : Type := MkInputs {
  anat : ndarray Q;
  aseg : ndarray Z;
  ants_segs : option (ndarray Z)
}.

(** [aseg[aseg == 42] = 3  # Collapse both hemispheres] *)
Definition collapse_hemispheres (aseg : ndarray Z) : ndarray Z :=
  where_set (λ x, x =? 42)%Z 3%Z aseg.

(** [gm = anat.copy(); gm[aseg != 3] = 0] *)
Definition gm_template (anat : ndarray Q) (aseg : ndarray Z) : option (ndarray Q) :=
  let gm := anat in
  putmask gm (amap (λ x, negb (x =? 3)%Z) aseg) 0%Q.

(** [a - b] for a boolean [a] and a uint8 [b]: numpy computes in uint8. *)
Definition subtract_uint8 (a : ndarray bool) (b : ndarray Z) : ndarray Z :=
  NdArray (shape a) (zip_with (λ x y, (Z.b2z x - y) mod 256)%Z (data a) (data b)).

(** [newrefmask = sim.binary_dilation(refined, selem) - refined] *)
Definition candidate_shell (refined : ndarray Z) (selem : ndarray Z) : ndarray Z :=
  subtract_uint8 (binary_dilation refined selem) refined.

(** [gm[p0 - ww:p0 + ww, p1 - ww:p1 + ww, p2 - ww:p2 + ww]] *)
Definition window_of (gm : ndarray Q) (pixel : coord) (ww : Z) : ndarray Q :=
  let '(i, j, k) := pixel in
  slice3 gm (Z.of_nat i - ww, Z.of_nat i + ww)%Z
            (Z.of_nat j - ww, Z.of_nat j + ww)%Z
            (Z.of_nat k - ww, Z.of_nat k + ww)%Z.

(** Body of the loop over the candidate voxels. *)
Definition pixel_step (anat gm : ndarray Q) (ants_segs : ndarray Z)
    (ww : Z) (zval : Q) (refined : ndarray Z) (pixel : coord)
  : option (ndarray Z) :=
  a ← getitem ants_segs pixel;
  if (a =? 2)%Z then setitem refined pixel 1%Z
  else
    let window := window_of gm pixel ww in
    if existsb (Qltb 0) (data window) then
      let positive := filter (λ x, Qltb 0 x = true) (data window) in
      let mu := mean positive in
      let var := variance positive in
      x ← getitem anat pixel;
      setitem refined pixel (Z.b2z (zstat_below x mu var zval))
    else Some refined.

(** [for pixel in indices: ...], threading the array written in place. *)
Fixpoint for_pixels (body : ndarray Z → coord → option (ndarray Z))
    (indices : list coord) (refined : ndarray Z) : option (ndarray Z) :=
  match indices with
  | [] => Some refined
  | pixel :: rest => refined' ← body refined pixel; for_pixels body rest refined'
  end.

(** [grow_mask] up to the end of its loop: the mask before the opening,
    and the caller's arrays as the call leaves them. *)
Definition grow_refined (inp : Inputs) (ww : Z) (zval : Q) (bw : nat)
  : option (ndarray Z * Inputs) :=
  let selem := ball bw in
  let ants := match ants_segs inp with
              | Some a => a
              | None => zeros_like (aseg inp)
              end in
  let aseg' := collapse_hemispheres (aseg inp) in
  gm ← gm_template (anat inp) aseg';
  let refined := refine_aseg aseg' 4 in
  let newrefmask := candidate_shell refined selem in
  let indices := argwhere (λ x, 0 <? x)%Z newrefmask in
  refined ← for_pixels (pixel_step (anat inp) gm ants ww zval) indices refined;
  Some (refined, MkInputs (anat inp) aseg' (ants_segs inp)).

Definition grow_mask (inp : Inputs) (ww : Z) (zval : Q) (bw : nat)
  : option (ndarray bool * Inputs) :=
  '(refined, inp') ← grow_refined inp ww zval bw;
  Some (binary_opening refined (ball bw), inp').

(** * Vocabulary of the statements *)

(** Truth value of the cell at an array index. *)
Definition cell {A} `{Truthy A} (v : ndarray A) (p : coord) : bool :=
  from_option truthy false (getitem v p).

Definition of_coord (p : coord) : offset :=
  let '(i, j, k) := p in (Z.of_nat i, Z.of_nat j, Z.of_nat k).

Definition origin : offset := (0, 0, 0)%Z.

Definition count_true (l : list bool) : nat :=
  length (filter (λ b : bool, b = true) l).

(** [t] lies below [t'] when every true cell of [t] is true in [t']. *)
Definition below (t t' : ndarray bool) : Prop :=
  ∀ p, cell t p = true → cell t' p = true.

(** The mask of [refine_aseg] before its casts to uint8. *)
Definition refined_bool (aseg : ndarray Z) (ball_size : nat) : ndarray bool :=
  let selem := ball ball_size in
  binary_fill_holes (bool_astype_uint8 (binary_closing (binarize aseg) selem)) selem.

(** The rule of claim C2 as it is worded: the intermediate mask is 1 where
    the label is positive and 0 everywhere else. *)
Definition binarize_rule (aseg : ndarray Z) : Prop :=
  ∀ p x, getitem aseg p = Some x →
         getitem (binarize aseg) p = Some (if (0 <? x)%Z then 1 else 0)%Z.

(** What the loop body decides for a voxel: leave the mask as it is, or write
    a value at that voxel. *)
Inductive verdict : Type :=
  | Leave
  | Write (b : Z).

Definition apply_verdict (refined : ndarray Z) (pixel : coord) (v : verdict)
  : option (ndarray Z) :=
  match v with
  | Leave => Some refined
  | Write b => setitem refined pixel b
  end.

(** The decision of [pixel_step], computed from the template, the anatomical
    volume and the auxiliary segmentation alone. *)
Definition pixel_verdict (anat gm : ndarray Q) (ants_segs : ndarray Z)
    (ww : Z) (zval : Q) (pixel : coord) : option verdict :=
  a ← getitem ants_segs pixel;
  if (a =? 2)%Z then Some (Write 1%Z)
  else
    let window := window_of gm pixel ww in
    if existsb (Qltb 0) (data window) then
      let positive := filter (λ x, Qltb 0 x = true) (data window) in
      x ← getitem anat pixel;
      Some (Write (Z.b2z (zstat_below x (mean positive) (variance positive) zval)))
    else Some Leave.

(** The candidate voxels of [grow_mask]. *)
Definition candidates (aseg : ndarray Z) (bw : nat) : list coord :=
  argwhere (λ x, 0 <? x)%Z
    (candidate_shell (refine_aseg (collapse_hemispheres aseg) 4) (ball bw)).

(** The variant of the spec's words: the loop body with the
    auxiliary-segmentation branch removed, so that only the windowed
    z-score test decides. *)
Definition pixel_step_stat (anat gm : ndarray Q) (ww : Z) (zval : Q)
    (refined : ndarray Z) (pixel : coord) : option (ndarray Z) :=
  let window := window_of gm pixel ww in
  if existsb (Qltb 0) (data window) then
    let positive := filter (λ x, Qltb 0 x = true) (data window) in
    let mu := mean positive in
    let var := variance positive in
    x ← getitem anat pixel;
    setitem refined pixel (Z.b2z (zstat_below x mu var zval))
  else Some refined.

Definition grow_refined_stat (inp : Inputs) (ww : Z) (zval : Q) (bw : nat)
  : option (ndarray Z * Inputs) :=
  let selem := ball bw in
  let aseg' := collapse_hemispheres (aseg inp) in
  gm ← gm_template (anat inp) aseg';
  let refined := refine_aseg aseg' 4 in
  let newrefmask := candidate_shell refined selem in
  let indices := argwhere (λ x, 0 <? x)%Z newrefmask in
  refined ← for_pixels (pixel_step_stat (anat inp) gm ww zval) indices refined;
  Some (refined, MkInputs (anat inp) aseg' (ants_segs inp)).

Definition grow_mask_stat (inp : Inputs) (ww : Z) (zval : Q) (bw : nat)
  : option (ndarray bool * Inputs) :=
  '(refined, inp') ← grow_refined_stat inp ww zval bw;
  Some (binary_opening refined (ball bw), inp').

(** The auxiliary segmentation is omitted, or is an all-zero volume on the
    grid of [aseg]. *)
Definition ants_all_zero (inp : Inputs) : Prop :=
  match ants_segs inp with
  | None => True
  | Some a => wf a ∧ shape a = shape (aseg inp) ∧ Forall (λ x, x = 0%Z) (data a)
  end.

(** The array the loop reads as [ants_segs]. *)
Definition effective_ants (inp : Inputs) : ndarray Z :=
  match ants_segs inp with
  | Some a => a
  | None => zeros_like (aseg inp)
  end.

(** The auxiliary segmentation is omitted, or lies on the grid of [aseg]. *)
Definition ants_on_grid (inp : Inputs) : Prop :=
  match ants_segs inp with
  | None => True
  | Some a => wf a ∧ shape a = shape (aseg inp)
  end.


(** A volume of a single row of voxels, of shape [(1, 1, n)]. *)
Definition row {A} (l : list A) : ndarray A := NdArray (1, 1, length l) l.

(** Gray matter of intensity 100 at voxels 6 to 8 (the last one labelled
    42), background of intensity 50. *)
Definition shelf : Inputs :=
  MkInputs
    (row (inject_Z <$> [50; 50; 50; 50; 50; 50; 100; 100; 100;
                        50; 50; 50; 50; 50; 50; 50]%Z))
    (row [0; 0; 0; 0; 0; 0; 3; 3; 42; 0; 0; 0; 0; 0; 0; 0]%Z)
    None.


(** The gray-matter template of [shelf]. *)
Definition shelf_gm : ndarray Q :=
  row (inject_Z <$> [0; 0; 0; 0; 0; 0; 100; 100; 100; 0; 0; 0; 0; 0; 0; 0]%Z).

(** Positions that [gm[p - ww:p + ww]] reads on an axis of length [n]. *)
Definition window_axis (n p : nat) (ww : Z) : list nat :=
  slice_indices n (Z.of_nat p - ww) (Z.of_nat p + ww).

(** The window of claim C5 as it is worded: the positions [p - ww] through
    [p + ww] of the axis, whether or not they fall inside the array. *)
Definition claimed_axis (p : nat) (ww : Z) : list Z :=
  seqZ (Z.of_nat p - ww) (2 * ww + 1).

(** A volume whose voxel [k] holds the intensity [k]. *)
Definition ramp : ndarray Q := row (inject_Z <$> seqZ 0 16).

(** A background voxel is open to the outside when a chain of background
    voxels, each one offset of the structuring element away from the next,
    leads from it out of the array. *)
Inductive open_to_outside {A} `{Truthy A} (v : ndarray A) (S : list offset)
  : coord → Prop :=
  | open_border p o :
      in_bounds (shape v) p = true → cell v p = false → o ∈ S →
      to_coord (shape v) (unshift p o) = None →
      open_to_outside v S p
  | open_step p o q :
      in_bounds (shape v) p = true → cell v p = false → o ∈ S →
      to_coord (shape v) (unshift p o) = Some q →
      open_to_outside v S q →
      open_to_outside v S p.

(** The mask has no enclosed hole: all its background is open to the
    outside. *)
Definition hole_free {A} `{Truthy A} (v : ndarray A) (selem : ndarray Z) : Prop :=
  ∀ p, in_bounds (shape v) p = true → cell v p = false →
       open_to_outside v (footprint_offsets selem) p.


(** The volume holds only 0 and 1. *)
Definition binary_volume (v : ndarray Z) : Prop :=
  Forall (λ x, x = 0%Z ∨ x = 1%Z) (data v).


(** A volume of 5 x 5 x 5 voxels, each holding its position in the buffer. *)
Definition cube : ndarray Q :=
  tabulate (5, 5, 5) (λ p, inject_Z (Z.of_nat (ravel (5, 5, 5) p))).

(** [shelf] with an auxiliary segmentation that is zero everywhere. *)
Definition shelf_zero_ants : Inputs :=
  MkInputs (anat shelf) (aseg shelf) (Some (zeros_like (aseg shelf))).

(** A hollow 3 x 3 x 3 box in the middle of a volume of 5 x 5 x 5 voxels. *)
Definition hollow_box : ndarray Z :=
  tabulate (5, 5, 5) (λ '(i, j, k),
    if (1 <=? i) && (i <=? 3) && (1 <=? j) && (j <=? 3) && (1 <=? k) && (k <=? 3)
       && negb ((i =? 2) && (j =? 2) && (k =? 2))
    then 1%Z else 0%Z).



(** * The other functions of [interfaces/freesurfer.py] and the carpet and
      confound plots of [viz/plots.py]

    Further conventions.
    - A text is the list of its code points; a file system is a finite map
      from paths to contents, a path that does not exist being absent.
    - Paths and line ends are those of a POSIX system.
    - What nibabel, nilearn and nipype compute is a parameter of the
      function that calls it.
    - An exception is [None], as before. *)

(** ** [fix_lta_length] and [TruncateLTA] *)

Module Lta.

(** *** Text and files *)

(** A Python [str]: its code points. *)
Definition text : Type := list N.

(** The text of a string literal of the source. *)
Definition lit (s : string) : text := N_of_ascii <$> list_ascii_of_string s.

Definition LF : N := 10.
Definition CR : N := 13.

(** Universal newlines, as text-mode [open] applies them on reading:
    CR LF and a lone CR both become LF. *)
Fixpoint universal_newlines (raw : text) : text :=
  match raw with
  | [] => []
  | c :: rest =>
      if decide (c = CR) then
        LF :: match rest with
              | c' :: rest' =>
                  if decide (c' = LF) then universal_newlines rest'
                  else universal_newlines rest
              | [] => []
              end
      else c :: universal_newlines rest
  end.

(** The line boundaries of [str.splitlines]. *)
Definition is_linebreak (c : N) : bool :=
  bool_decide (c ∈ [10; 11; 12; 13; 28; 29; 30; 133; 8232; 8233]%N).

(** [str.splitlines(keepends=True)], [cur] being the line read so far. *)
Fixpoint splitlines_from (cur : text) (s : text) : list text :=
  match s with
  | [] => match cur with [] => [] | _ => [cur] end
  | c :: rest =>
      if is_linebreak c then
        if decide (c = CR) then
          match rest with
          | c' :: rest' =>
              if decide (c' = LF) then (cur ++ [c; c']) :: splitlines_from [] rest'
              else (cur ++ [c]) :: splitlines_from [] rest
          | [] => (cur ++ [c]) :: splitlines_from [] rest
          end
        else (cur ++ [c]) :: splitlines_from [] rest
      else splitlines_from (cur ++ [c]) rest
  end.

Definition splitlines (s : text) : list text := splitlines_from [] s.

(** [s.startswith(prefix)] *)
Fixpoint startswith (prefix s : text) : bool :=
  match prefix, s with
  | [], _ => true
  | _ :: _, [] => false
  | a :: prefix', b :: s' => bool_decide (a = b) && startswith prefix' s'
  end.

(** [s.lstrip("\n")] and [s.strip("\n")] *)
Fixpoint lstrip_lf (s : text) : text :=
  match s with
  | c :: rest => if decide (c = LF) then lstrip_lf rest else s
  | [] => []
  end.

Definition strip_lf (s : text) : text := reverse (lstrip_lf (reverse (lstrip_lf s))).

(** The files of the file system, by path: what [open] reads before the
    newline translation. *)
Abbreviation files := (gmap string text).

(** [Path(p).read_text()]; [None] is FileNotFoundError. *)
Definition read_text (fs : files) (p : string) : option text :=
  universal_newlines <$> fs !! p.

(** [Path(p).write_text(s)] on a POSIX system, where text mode writes LF
    as it is. *)
Definition write_text (fs : files) (p : string) (s : text) : files :=
  <[p := s]> fs.

(** *** [fix_lta_length] *)

(** The test of the loop:
    [line.startswith("filename = ") and len(line.strip("\n")) >= 255]. *)
Definition too_long (line : text) : bool :=
  startswith (lit "filename = ") line && (255 <=? length (strip_lf line)).

(** One turn of the loop over the lines, on the pair [(fixed, newfile)]. *)
Definition fix_step (st : bool * list text) (line : text) : bool * list text :=
  let '(fixed, newfile) := st in
  if too_long line
  then (true, newfile ++ [lit "filename = path_too_long" ++ [LF]])
  else (fixed, newfile ++ [line]).

Definition fix_lta_length (fs : files) (lta_file : string) : option (bool * files) :=
  contents ← read_text fs lta_file;
  let lines := splitlines contents in
  let '(fixed, newfile) := foldl fix_step (false, []) lines in
  if fixed
  then Some (fixed, write_text fs lta_file (mjoin newfile))
  else Some (fixed, fs).

(** *** Lines of a text *)

(** The line a too long line is replaced by, and the line written for a
    line of the file. *)
Definition short_line : text := lit "filename = path_too_long" ++ [LF].

Definition fix_line (line : text) : text :=
  if too_long line then short_line else line.

Definition no_break (body : text) : Prop :=
  Forall (λ c, is_linebreak c = false) body.

(** A line that ends with its only line boundary, which is no CR. *)
Definition terminated (line : text) : Prop :=
  ∃ body t, line = body ++ [t] ∧ no_break body ∧ is_linebreak t = true ∧ t ≠ CR.

(** Lines as [splitlines] gives them for a text without CR: each one
    terminated, but for a last one that may lack its boundary. *)
Inductive lines_ok : list text → Prop :=
  | lines_ok_nil : lines_ok []
  | lines_ok_last body : body ≠ [] → no_break body → lines_ok [body]
  | lines_ok_cons line lines :
      terminated line → lines_ok lines → lines_ok (line :: lines).

(** The file holds no line that [fix_lta_length] would replace. *)
Definition clean (fs : files) (p : string) : Prop :=
  ∃ contents, read_text fs p = Some contents
            ∧ Forall (λ line, too_long line = false) (splitlines contents).

(** *** [TruncateLTA._post_run_hook] *)

(** The loop of the hook over [lta_outputs]. [outputs] is the dictionary of
    [_list_outputs()], an absent key being a KeyError and [None] a value
    that is not defined. *)
Fixpoint post_run_hook (lta_outputs : list string)
    (outputs : gmap string (option string)) (fs : files) : option files :=
  match lta_outputs with
  | [] => Some fs
  | lta_name :: rest =>
      lta_file ← outputs !! lta_name;
      match lta_file with
      | None => post_run_hook rest outputs fs
      | Some p =>
          '(_, fs') ← fix_lta_length fs p;
          post_run_hook rest outputs fs'
      end
  end.

(** An LTA file whose [filename] line is 261 characters long, the file
    system that holds it as [out.lta], and both after the fix. *)
Definition long_lta : text :=
  lit "type      = 1" ++ [LF] ++ lit "filename = " ++ replicate 250 97%N ++ [LF]
  ++ lit "dst volume info" ++ [LF].

Definition fixed_lta : text :=
  lit "type      = 1" ++ [LF] ++ lit "filename = path_too_long" ++ [LF]
  ++ lit "dst volume info" ++ [LF].

Definition long_fs : files := {["out.lta" := long_lta]}.

Definition fixed_fs : files := <["out.lta" := fixed_lta]> long_fs.

End Lta.

(** ** [MakeMidthickness] *)

Module Midthickness.

Section Cmdline.

(** [Path(p).name], and [_associated_file] of nipype's [MRIsExpand]. *)
Variable path_name : string → string.
Variable associated_file : string → string → string.

(** The loop over [self.inputs.graymid]: a surface named [mt] ends the
    loop, a surface named [gm] is remembered and the loop goes on. *)
Fixpoint pick_source (mt gm : string) (graymid : list string)
    (source : option string) : option string :=
  match graymid with
  | [] => source
  | surf :: rest =>
      if decide (path_name surf = mt) then Some surf
      else if decide (path_name surf = gm) then pick_source mt gm rest (Some surf)
      else pick_source mt gm rest source
  end.

(** [MakeMidthickness.cmdline]. [cmd] is the command line of [MRIsExpand],
    [graymid] is [None] when the input is not defined, and [out_file] is
    [self._list_outputs()["out_file"]]. *)
Definition cmdline (cmd : string) (graymid : option (list string))
    (in_file out_file : string) : string :=
  match graymid with
  | None => cmd
  | Some graymid =>
      if length graymid <? 1 then cmd
      else
        let in_base := path_name in_file in
        let mt := associated_file in_base "midthickness" in
        let gm := associated_file in_base "graymid" in
        match pick_source mt gm graymid None with
        | None => cmd
        | Some source => "cp " +:+ source +:+ " " +:+ out_file
        end
  end.

End Cmdline.

(** [_associated_file] on a bare input name that starts with its
    hemisphere: the hemisphere of the input before the name asked for. *)
Definition hemi_file (in_base out_name : string) : string :=
  substring 0 3 in_base +:+ out_name.

End Midthickness.

(** ** [detect_inputs] and [FSDetectInputs] *)

Module DetectInputs.

(** A file name or a list of file names, as [filename_to_list] of nipype
    takes them. *)
Inductive filenames : Type :=
  | OneFile (f : string)
  | FileList (l : list string).

Definition filename_to_list (x : filenames) : list string :=
  match x with
  | OneFile f => [f]
  | FileList l => l
  end.

(** [max(zooms)]; [None] is the ValueError for an empty sequence. *)
Definition max_zoom (zooms : list Q) : option Q :=
  match zooms with
  | [] => None
  | z :: rest => Some (foldl (λ m x, if Qltb m x then x else m) z rest)
  end.

(** Truth value of a Python string or [None]. *)
Definition str_truthy (s : option string) : bool :=
  match s with
  | None => false
  | Some s => negb (bool_decide (s = ""))
  end.

(** A value of the results dictionary of an interface. *)
Inductive value : Type :=
  | VNone
  | VBool (b : bool)
  | VStr (s : string).

Section Detect.

(** [nb.load], [None] when it raises, and [header.get_zooms()]. *)
Variable image : Type.
Variable load : string → option image.
Variable get_zooms : image → list Q.

(** [filenames and max(nb.load(filenames[0]).header.get_zooms()) < 1.2];
    [None] when the load or the maximum raises. *)
Definition first_is_fine (files : list string) : option bool :=
  match files with
  | [] => Some false
  | f :: _ => img ← load f; m ← max_zoom (get_zooms img); Some (Qltb m (6 # 5))
  end.

Definition detect_inputs (t1w_list : filenames) (t2w_list flair_list : option filenames)
    (hires_enabled : bool)
  : option (option string * option string * bool * option string) :=
  let t1w_list := filename_to_list t1w_list in
  let t2w_list := from_option filename_to_list [] t2w_list in
  let flair_list := from_option filename_to_list [] flair_list in
  t1w_0 ← head t1w_list;
  t1w_ref ← load t1w_0;
  hires ← (if hires_enabled
           then m ← max_zoom (get_zooms t1w_ref); Some (Qltb m (1 - (5 # 100)))
           else Some false);
  t2w_fine ← first_is_fine t2w_list;
  let t2w := if (t2w_fine : bool) then head t2w_list else None in
  flair_fine ← (match flair_list with
                | [] => Some false
                | _ => if negb (str_truthy t2w) then first_is_fine flair_list
                       else Some false
                end);
  let flair := if (flair_fine : bool) then head flair_list else None in
  let mris_inflate := if (hires : bool) then Some "-n 50" else None in
  Some (t2w, flair, hires, mris_inflate).

(** [FSDetectInputs._run_interface]: the results it stores. *)
Definition run_interface (t1w_list : filenames) (t2w_list flair_list : option filenames)
    (hires_enabled : bool) : option (gmap string value) :=
  '(t2w, flair, hires, mris_inflate) ←
    detect_inputs t1w_list t2w_list flair_list hires_enabled;
  let results : gmap string value := {["hires" := VBool hires]} in
  let use_t2w := bool_decide (is_Some t2w) in
  let results := <["use_t2w" := VBool use_t2w]> results in
  let results := match t2w with
                 | Some f => <["t2w" := VStr f]> results
                 | None => results
                 end in
  let use_flair := bool_decide (is_Some flair) in
  let results := <["use_flair" := VBool use_flair]> results in
  let results := match flair with
                 | Some f => <["flair" := VStr f]> results
                 | None => results
                 end in
  let results := if (hires : bool)
                 then <["mris_inflate" := from_option VStr VNone mris_inflate]> results
                 else results in
  Some results.

End Detect.

Arguments first_is_fine {image} load get_zooms files.
Arguments detect_inputs {image} load get_zooms t1w_list t2w_list flair_list hires_enabled.
Arguments run_interface {image} load get_zooms t1w_list t2w_list flair_list hires_enabled.

(** Images given by their voxel sizes: [T1w.nii] has voxels of 0.8 mm and
    every other path an image of 1 mm. *)
Definition load_zooms (f : string) : option (list Q) :=
  if decide (f = "T1w.nii") then Some [8 # 10; 8 # 10; 8 # 10]%Q
  else Some [1; 1; 1]%Q.

(** The results of [FSDetectInputs] for [T1w.nii] and [T2w.nii]. *)
Definition t2w_results : gmap string value :=
  <["mris_inflate" := VStr "-n 50"]>
    (<["use_flair" := VBool false]>
       (<["t2w" := VStr "T2w.nii"]>
          (<["use_t2w" := VBool true]> {["hires" := VBool true]}))).

End DetectInputs.

(** ** [inject_skullstripped] *)

Module Inject.

(** [posixpath.join] *)
Definition starts_with_sep (s : string) : bool :=
  match s with
  | String c _ => bool_decide (c = "/"%char)
  | EmptyString => false
  end.

Fixpoint ends_with_sep (s : string) : bool :=
  match s with
  | EmptyString => false
  | String c EmptyString => bool_decide (c = "/"%char)
  | String _ rest => ends_with_sep rest
  end.

Definition join_step (path b : string) : string :=
  if starts_with_sep b then b
  else if bool_decide (path = "") || ends_with_sep path then path +:+ b
  else path +:+ "/" +:+ b.

Definition op_join (a : string) (p : list string) : string := foldl join_step a p.

Section Files.

(** The images on disk, by path: what [nb.load] returns for a path, a path
    that does not exist being absent. [mask_image t1 skullstripped] is the
    image that the function computes for [brainmask.auto.mgz], [None] when
    the resampling raises. *)
Variable image : Type.
Variable mask_image : image → image → option image.

Definition inject_skullstripped (fs : gmap string image)
    (subjects_dir subject_id skullstripped : string)
  : option (gmap string image * (string * string)) :=
  let mridir := op_join subjects_dir [subject_id; "mri"] in
  let t1 := op_join mridir ["T1.mgz"] in
  let bm_auto := op_join mridir ["brainmask.auto.mgz"] in
  let bm := op_join mridir ["brainmask.mgz"] in
  fs ← (if bool_decide (is_Some (fs !! bm_auto)) then Some fs
        else
          img ← fs !! t1;
          mask ← fs !! skullstripped;
          masked_image ← mask_image img mask;
          Some (<[bm_auto := masked_image]> fs));
  fs ← (if bool_decide (is_Some (fs !! bm)) then Some fs
        else
          source ← fs !! bm_auto;
          Some (<[bm := source]> fs));
  Some (fs, (subjects_dir, subject_id)).

End Files.

Arguments inject_skullstripped {image} mask_image fs subjects_dir subject_id skullstripped.

(** A subject with its [T1.mgz] and a skull-stripped image, images being
    numbers and the masking their product; the same after the injection. *)
Definition subject_fs : gmap string nat :=
  <["/subjects/sub-01/mri/T1.mgz" := 7]> {["/data/brain.nii.gz" := 1]}.

Definition product (img mask : nat) : option nat := Some (img * mask).

Definition injected_fs : gmap string nat :=
  <["/subjects/sub-01/mri/brainmask.mgz" := 7]>
    (<["/subjects/sub-01/mri/brainmask.auto.mgz" := 7]> subject_fs).

End Inject.

(** ** [plot_carpet] *)

Module Carpet.

(** *** numpy on one axis *)

(** [l[start:stop] = v] *)
Definition assign_slice (l : list Z) (start stop : Z) (v : Z) : list Z :=
  foldr (λ i acc, <[i := v]> acc) l (slice_indices (length l) start stop).

(** [lut[i]] for one integer of an index array: a negative index counts
    from the end, and [None] is the IndexError. *)
Definition take_index (lut : list Z) (i : Z) : option Z :=
  let n := Z.of_nat (length lut) in
  if ((0 <=? i) && (i <? n))%Z then lut !! Z.to_nat i
  else if ((- n <=? i) && (i <? 0))%Z then lut !! Z.to_nat (i + n)
  else None.

(** [a // b] on integers; [None] is the ZeroDivisionError. *)
Definition floordiv (a b : Z) : option Z :=
  if (b =? 0)%Z then None else Some (a / b)%Z.

(** The number of the indices [0], [k], [2 k], ... below [n]. *)
Definition ceil_div (n k : nat) : nat := (n + k - 1) / k.

(** [l[::step]]; [None] is the ValueError for a step of 0. *)
Definition every {A} (step : Z) (l : list A) : option (list A) :=
  let n := length l in
  if (0 <? step)%Z then
    let k := Z.to_nat step in
    Some (omap (λ j, l !! (j * k)) (seq 0 (ceil_div n k)))
  else if (step <? 0)%Z then
    let k := Z.to_nat (- step) in
    Some (omap (λ j, l !! (n - 1 - j * k)) (seq 0 (ceil_div n k)))
  else None.

(** *** [plot_carpet], up to the detrending *)

(** The table built when [lut is None]. *)
Definition default_lut : list Z :=
  let lut := replicate 256 0%Z in
  let lut := assign_slice lut 1 11 1 in
  let lut := <[255 := 2%Z]> lut in
  let lut := assign_slice lut 30 99 3 in
  assign_slice lut 100 201 4.

(** The arrays [data] and [newsegm] that [plot_carpet] draws, with the two
    decimation factors [p_dec] and [t_dec].  [func_data] is the 4D array as
    the volume of the series of its voxels, each of [ntsteps] frames, and
    [atlaslabels] a 3D array of integers.
    - [func_data[atlaslabels > 0]] raises IndexError unless the mask has
      the shape of the first three axes;
    - [reshape(-1, ntsteps)] raises ValueError for [ntsteps = 0];
    - [size[0] = 0] and [size[1] = 0] raise ZeroDivisionError;
    - [data.shape[1]] is [ntsteps], also when no row is left. *)
Definition plot_carpet_data (func_data : ndarray (list Q)) (ntsteps : nat)
    (atlaslabels : ndarray Z) (size : Z * Z) (lut : option (list Z))
  : option (list (list Q) * list Z * Z * Z) :=
  if decide (shape atlaslabels = shape func_data) then
    let inside := argwhere (λ x, 0 <? x)%Z atlaslabels in
    if decide (ntsteps = 0) then None else
    let data := omap (getitem func_data) inside in
    let seg := omap (getitem atlaslabels) inside in
    let lut := from_option id default_lut lut in
    newsegm ← mapM (take_index lut) seg;
    q ← floordiv (Z.of_nat (length data)) size.1;
    let p_dec := (1 + q)%Z in
    '(data, newsegm) ←
      (if (p_dec =? 0)%Z then Some (data, newsegm)
       else d ← every p_dec data; s ← every p_dec newsegm; Some (d, s));
    q ← floordiv (Z.of_nat ntsteps) size.2;
    let t_dec := (1 + q)%Z in
    data ← (if (t_dec =? 0)%Z then Some data else mapM (every t_dec) data);
    Some (data, newsegm, p_dec, t_dec)
  else None.

(** [fMRIPlot.__init__]: without a segmentation, [seg_data] is
    [2 * mask_data] (in integers: a mask of zeros and ones overflows no
    dtype). *)
Definition seg_data (mask_data : ndarray Z) (seg : option (ndarray Z)) : ndarray Z :=
  match seg with
  | None => amap (λ x, 2 * x)%Z mask_data
  | Some seg => seg
  end.

(** [max((n // 10, n // 5, 1))] and [list(range(0, last)[::interval])],
    the interval being positive. *)
Definition tick_interval (n : nat) : nat := (n / 10) `max` ((n / 5) `max` 1).

Definition ticks (interval last : nat) : list nat :=
  from_option id [] (every (Z.of_nat interval) (seq 0 last)).

(** The X ticks of [plot_carpet] for [data.shape[-1] = n], and of
    [confoundplot] for [ntsteps = n]. *)
Definition carpet_xticks (n : nat) : list nat := ticks (tick_interval (n + 1)) n.
Definition confound_xticks (n : nat) : list nat := ticks (tick_interval n) n.

(** The class of a label, as the comments of the default table give it. *)
Definition default_class (label : Z) : option Z :=
  if (label <=? 10)%Z then Some 1%Z
  else if (30 <=? label)%Z && (label <=? 98)%Z then Some 3%Z
  else if (100 <=? label)%Z && (label <=? 200)%Z then Some 4%Z
  else if (label =? 255)%Z then Some 2%Z
  else if (label <=? 255)%Z then Some 0%Z
  else None.

(** Four voxels of three frames, three of them inside the atlas. *)
Definition small_func : ndarray (list Q) :=
  row [[1; 2; 3]; [4; 5; 6]; [7; 8; 9]; [10; 11; 12]]%Q.

Definition small_atlas : ndarray Z := row [1; 30; 0; 255]%Z.

Definition small_mask : ndarray Z := row [1; 0; 1; 1]%Z.

End Carpet.

(** ** [confoundplot] *)

Module Confound.

(** *** The Y limits of [confoundplot] *)

(** A sample is a number or NaN ([None]); [tseries[~np.isnan(tseries)]]
    keeps the numbers. *)
Definition not_nan (tseries : list (option Q)) : list Q := omap id tseries.

(** [a.min()] and [a.max()]; [None] is the ValueError on an empty array. *)
Definition amin (a : list Q) : option Q :=
  match a with [] => None | x :: a' => Some (foldl Qmin x a') end.

Definition amax (a : list Q) : option Q :=
  match a with [] => None | x :: a' => Some (foldl Qmax x a') end.

(** [def_ylims] as handed to [set_ylim], from the series after its
    normalisation and the [ylims] argument. *)
Definition def_ylims (tseries : list (option Q))
    (ylims : option (option Q * option Q)) : option (Q * Q) :=
  lo ← amin (not_nan tseries);
  hi ← amax (not_nan tseries);
  let d0 := (lo - (1 # 10) * Qabs lo)%Q in
  let d1 := ((11 # 10) * hi)%Q in
  match ylims with
  | None => Some (d0, d1)
  | Some (y0, y1) =>
      Some (from_option (λ y, Qmin d0 y) d0 y0, from_option (λ y, Qmax d1 y) d1 y1)
  end.

(** A series with a NaN, and a series under zero. *)
Definition drift : list (option Q) := [Some (-2); None; Some 3; Some 1]%Q.

Definition sunk : list (option Q) := [Some (-2); Some (-1)]%Q.

End Confound.



(** * Properties

    The claims are settled by: C1 [grow_mask_overwrites_aseg],
    C2 [binarize_spec], C3 [refine_aseg_monotone],
    C4 [refine_aseg_fixed_point], C5 [window_extraction],
    C6 [grow_mask_zero_ants], C7 [large_zval_includes],
    C8 [grow_mask_radius_0], C9 [loop_order_independent],
    C10 [candidate_shell_no_underflow]. *)

(** ** Index arithmetic *)

Lemma in_bounds_spec (sh : shape3) (p : coord) :
  in_bounds sh p = true ↔ p.1.1 < sh.1.1 ∧ p.1.2 < sh.1.2 ∧ p.2 < sh.2.
Proof.
  destruct sh as [[nx ny] nz], p as [[i j] k]; simpl.
  rewrite !andb_true_iff, !Nat.ltb_lt. tauto.
Qed.

Lemma ravel_lt (sh : shape3) (p : coord) :
  in_bounds sh p = true → ravel sh p < size sh.
Proof.
  rewrite in_bounds_spec.
  destruct sh as [[nx ny] nz], p as [[i j] k]; simpl. intros (Hi & Hj & Hk).
  assert (i * ny + j + 1 ≤ nx * ny) by nia.
  assert ((i * ny + j + 1) * nz ≤ nx * ny * nz) by (apply Nat.mul_le_mono_r; lia).
  lia.
Qed.

Lemma unravel_ravel (sh : shape3) (p : coord) :
  in_bounds sh p = true → unravel sh (ravel sh p) = p.
Proof.
  rewrite in_bounds_spec.
  destruct sh as [[nx ny] nz], p as [[i j] k]; simpl. intros (Hi & Hj & Hk).
  assert (E1 : ((i * ny + j) * nz + k) / nz = i * ny + j).
  { symmetry. apply (Nat.div_unique _ _ _ k); lia. }
  assert (E2 : ((i * ny + j) * nz + k) mod nz = k).
  { symmetry. apply (Nat.mod_unique _ _ (i * ny + j)); lia. }
  assert (E3 : ((i * ny + j) * nz + k) / (ny * nz) = i).
  { symmetry. apply (Nat.div_unique _ _ _ (j * nz + k)); nia. }
  assert (E4 : (i * ny + j) mod ny = j).
  { symmetry. apply (Nat.mod_unique _ _ i); lia. }
  rewrite E1, E2, E3, E4. reflexivity.
Qed.

Lemma ravel_unravel (sh : shape3) (n : nat) :
  n < size sh → ravel sh (unravel sh n) = n.
Proof.
  destruct sh as [[nx ny] nz]; simpl. intros Hn.
  assert (ny ≠ 0 ∧ nz ≠ 0) as [Hy Hz] by nia.
  replace (n / (ny * nz)) with (n / nz / ny)
    by (rewrite Nat.Div0.div_div; f_equal; lia).
  pose proof (Nat.div_mod (n / nz) ny Hy).
  pose proof (Nat.div_mod n nz Hz). nia.
Qed.

Lemma in_bounds_unravel (sh : shape3) (n : nat) :
  n < size sh → in_bounds sh (unravel sh n) = true.
Proof.
  intros Hn. apply in_bounds_spec.
  destruct sh as [[nx ny] nz]; simpl in *.
  assert (ny ≠ 0 ∧ nz ≠ 0) as [Hy Hz] by nia.
  repeat split.
  - apply Nat.Div0.div_lt_upper_bound. lia.
  - apply Nat.mod_upper_bound; assumption.
  - apply Nat.mod_upper_bound; assumption.
Qed.

Lemma ravel_inj (sh : shape3) (p q : coord) :
  in_bounds sh p = true → in_bounds sh q = true →
  ravel sh p = ravel sh q → p = q.
Proof.
  intros Hp Hq E.
  rewrite <- (unravel_ravel sh p Hp), <- (unravel_ravel sh q Hq), E.
  reflexivity.
Qed.

Lemma length_ndindex (sh : shape3) : length (ndindex sh) = size sh.
Proof. unfold ndindex. rewrite length_fmap, length_seq. reflexivity. Qed.

Lemma lookup_ndindex (sh : shape3) (p : coord) :
  in_bounds sh p = true → ndindex sh !! ravel sh p = Some p.
Proof.
  intros Hp. unfold ndindex.
  rewrite list_lookup_fmap, lookup_seq_lt by (apply ravel_lt; assumption).
  simpl. rewrite unravel_ravel by assumption. reflexivity.
Qed.

Lemma elem_of_ndindex (sh : shape3) (p : coord) :
  p ∈ ndindex sh ↔ in_bounds sh p = true.
Proof.
  unfold ndindex. rewrite list_elem_of_fmap. split.
  - intros (n & -> & Hn). apply elem_of_seq in Hn.
    apply in_bounds_unravel. lia.
  - intros Hp. exists (ravel sh p). split.
    + symmetry. apply unravel_ravel. assumption.
    + apply elem_of_seq. pose proof (ravel_lt sh p Hp). lia.
Qed.

(** ** Arrays built cell by cell *)

Section Arrays.
Context {A : Type}.
Implicit Types (v : ndarray A) (p q : coord) (sh : shape3).

Lemma shape_tabulate sh (f : coord → A) : shape (tabulate sh f) = sh.
Proof. reflexivity. Qed.

Lemma wf_tabulate sh (f : coord → A) : wf (tabulate sh f).
Proof. unfold wf, tabulate; simpl. rewrite length_fmap. apply length_ndindex. Qed.

Lemma getitem_tabulate sh (f : coord → A) p :
  in_bounds sh p = true → getitem (tabulate sh f) p = Some (f p).
Proof.
  intros Hp. unfold getitem, tabulate; simpl. rewrite Hp.
  rewrite list_lookup_fmap, lookup_ndindex by assumption. reflexivity.
Qed.

Lemma getitem_out v p : in_bounds (shape v) p = false → getitem v p = None.
Proof. intros Hp. unfold getitem. rewrite Hp. reflexivity. Qed.

Lemma getitem_is_Some v p :
  wf v → in_bounds (shape v) p = true → is_Some (getitem v p).
Proof.
  intros Hwf Hp. unfold getitem. rewrite Hp.
  apply lookup_lt_is_Some. rewrite Hwf. apply ravel_lt. assumption.
Qed.

Lemma getitem_Some_in_bounds v p x :
  getitem v p = Some x → in_bounds (shape v) p = true.
Proof. unfold getitem. destruct (in_bounds (shape v) p); [reflexivity | discriminate]. Qed.

(** Two well-formed arrays of one shape with the same cells are equal. *)
Lemma ndarray_ext v w :
  wf v → wf w → shape v = shape w →
  (∀ p, in_bounds (shape v) p = true → getitem v p = getitem w p) →
  v = w.
Proof.
  destruct v as [sh dv], w as [sh' dw]; unfold wf; simpl.
  intros Hv Hw <- Hcells. f_equal.
  apply list_eq. intros n.
  destruct (decide (n < size sh)) as [Hn | Hn].
  - specialize (Hcells (unravel sh n) (in_bounds_unravel sh n Hn)).
    unfold getitem in Hcells; simpl in Hcells.
    rewrite in_bounds_unravel, ravel_unravel in Hcells by assumption.
    exact Hcells.
  - rewrite !lookup_ge_None_2 by lia. reflexivity.
Qed.

Lemma tabulate_ext sh (f g : coord → A) :
  (∀ p, in_bounds sh p = true → f p = g p) → tabulate sh f = tabulate sh g.
Proof.
  intros Hfg. unfold tabulate. f_equal.
  apply list_fmap_ext. intros n p Hn. apply Hfg.
  apply elem_of_ndindex. eapply list_elem_of_lookup_2. exact Hn.
Qed.

Lemma tabulate_getitem v (f : coord → A) :
  wf v →
  (∀ p x, getitem v p = Some x → f p = x) →
  tabulate (shape v) f = v.
Proof.
  intros Hwf Hf. apply ndarray_ext.
  - apply wf_tabulate.
  - assumption.
  - reflexivity.
  - intros p Hp. simpl in Hp. rewrite getitem_tabulate by assumption.
    destruct (getitem_is_Some v p Hwf Hp) as [x Hx].
    rewrite Hx. f_equal. apply Hf. assumption.
Qed.

Lemma shape_setitem v p x v' : setitem v p x = Some v' → shape v' = shape v.
Proof.
  unfold setitem. destruct (in_bounds (shape v) p); intros [= <-]; reflexivity.
Qed.

Lemma wf_setitem v p x v' : wf v → setitem v p x = Some v' → wf v'.
Proof.
  unfold setitem, wf. destruct (in_bounds (shape v) p); intros Hwf [= <-]; simpl.
  rewrite length_insert. assumption.
Qed.

Lemma setitem_is_Some v p x :
  in_bounds (shape v) p = true → is_Some (setitem v p x).
Proof. intros Hp. unfold setitem. rewrite Hp. eauto. Qed.


Lemma getitem_setitem_ne v p q x v' :
  setitem v p x = Some v' → p ≠ q → getitem v' q = getitem v q.
Proof.
  unfold setitem, getitem.
  destruct (in_bounds (shape v) p) eqn:Hp; intros [= <-] Hne; simpl.
  destruct (in_bounds (shape v) q) eqn:Hq; [| reflexivity].
  apply list_lookup_insert_ne. intros E. apply Hne.
  eapply ravel_inj; eassumption.
Qed.

(** Writes to two different voxels commute. *)
Lemma setitem_commute v p q x y :
  p ≠ q →
  (v' ← setitem v p x; setitem v' q y) = (v' ← setitem v q y; setitem v' p x).
Proof.
  intros Hne. unfold setitem.
  destruct (in_bounds (shape v) p) eqn:Hp, (in_bounds (shape v) q) eqn:Hq;
    simpl; rewrite ?Hp, ?Hq; try reflexivity.
  f_equal. f_equal. apply list_insert_insert_ne.
  intros E. apply Hne. symmetry in E. eapply ravel_inj; eassumption.
Qed.

Lemma setitem_twice v p x y :
  (v' ← setitem v p x; setitem v' p y) = setitem v p y.
Proof.
  unfold setitem. destruct (in_bounds (shape v) p) eqn:Hp; simpl; [| reflexivity].
  rewrite Hp. f_equal. f_equal. apply list_insert_insert_eq.
Qed.

End Arrays.

Section ArrayMaps.
Context {A B : Type}.

Lemma shape_amap (f : A → B) (v : ndarray A) : shape (amap f v) = shape v.
Proof. reflexivity. Qed.

Lemma wf_amap (f : A → B) (v : ndarray A) : wf v → wf (amap f v).
Proof. unfold wf, amap; simpl. rewrite length_fmap. trivial. Qed.

Lemma getitem_amap (f : A → B) (v : ndarray A) (p : coord) :
  getitem (amap f v) p = f <$> getitem v p.
Proof.
  unfold getitem, amap; simpl.
  destruct (in_bounds (shape v) p); [apply list_lookup_fmap | reflexivity].
Qed.

End ArrayMaps.

(** ** Reading a cell through signed positions *)

Lemma to_coord_of_coord (sh : shape3) (p : coord) :
  to_coord sh (of_coord p) = if in_bounds sh p then Some p else None.
Proof.
  destruct sh as [[nx ny] nz], p as [[i j] k]; simpl.
  destruct (i <? nx) eqn:Hi, (j <? ny) eqn:Hj, (k <? nz) eqn:Hk; simpl;
    rewrite ?Nat.ltb_lt, ?Nat.ltb_ge in *;
    repeat match goal with
    | |- context [(?a <=? ?b)%Z] => destruct (Z.leb_spec a b); try lia; simpl
    | |- context [(?a <? ?b)%Z] => destruct (Z.ltb_spec a b); try lia; simpl
    end; rewrite ?Nat2Z.id; reflexivity.
Qed.

Lemma to_coord_Some (sh : shape3) (q : offset) (p : coord) :
  to_coord sh q = Some p → in_bounds sh p = true ∧ q = of_coord p.
Proof.
  destruct sh as [[nx ny] nz], q as [[x y] z]; simpl.
  destruct (_ && _)%bool eqn:E; [| discriminate]. intros [= <-].
  rewrite !andb_true_iff, !Z.leb_le, !Z.ltb_lt in E.
  split.
  - rewrite !andb_true_iff, !Nat.ltb_lt. lia.
  - unfold of_coord. rewrite !Z2Nat.id by lia. reflexivity.
Qed.

Lemma shift_origin (p : coord) : shift p origin = of_coord p.
Proof. destruct p as [[i j] k]; simpl. rewrite !Z.add_0_r. reflexivity. Qed.

Lemma unshift_origin (p : coord) : unshift p origin = of_coord p.
Proof. destruct p as [[i j] k]; simpl. rewrite !Z.sub_0_r. reflexivity. Qed.

Lemma unshift_shift (p q : coord) (o : offset) :
  shift p o = of_coord q → unshift q o = of_coord p.
Proof.
  destruct p as [[i j] k], q as [[i' j'] k'], o as [[a b] c]; simpl.
  intros [= <- <- <-]. f_equal; [f_equal |]; lia.
Qed.

Section Peek.
Context {A : Type} `{Truthy A}.

Lemma peek_of_coord (v : ndarray A) (border : bool) (p : coord) :
  in_bounds (shape v) p = true → peek v border (of_coord p) = cell v p.
Proof.
  intros Hp. unfold peek. rewrite to_coord_of_coord, Hp. reflexivity.
Qed.

Lemma peek_cases (v : ndarray A) (border : bool) (q : offset) :
  (to_coord (shape v) q = None ∧ peek v border q = border)
  ∨ (∃ p, to_coord (shape v) q = Some p ∧ in_bounds (shape v) p = true
          ∧ q = of_coord p ∧ peek v border q = cell v p).
Proof.
  unfold peek. destruct (to_coord (shape v) q) as [p |] eqn:E.
  - right. exists p. destruct (to_coord_Some _ _ _ E). auto.
  - left. auto.
Qed.

Lemma getitem_dilation (v : ndarray A) (structure : list offset)
    (border : bool) (p : coord) :
  in_bounds (shape v) p = true →
  getitem (ndi_binary_dilation v structure border) p
  = Some (existsb (λ o, peek v border (unshift p o)) structure).
Proof. intros Hp. unfold ndi_binary_dilation. rewrite getitem_tabulate; auto. Qed.

Lemma getitem_erosion (v : ndarray A) (structure : list offset)
    (border : bool) (p : coord) :
  in_bounds (shape v) p = true →
  getitem (ndi_binary_erosion v structure border) p
  = Some (forallb (λ o, peek v border (shift p o)) structure).
Proof. intros Hp. unfold ndi_binary_erosion. rewrite getitem_tabulate; auto. Qed.

(** A structuring element that holds its centre makes dilation grow the
    image and erosion shrink it. *)
Lemma dilation_extensive (v : ndarray A) (structure : list offset)
    (border : bool) (p : coord) :
  origin ∈ structure → in_bounds (shape v) p = true → cell v p = true →
  cell (ndi_binary_dilation v structure border) p = true.
Proof.
  intros Ho Hp Hc. unfold cell at 1. rewrite getitem_dilation by assumption.
  simpl. apply existsb_exists. exists origin. split.
  - apply list_elem_of_In. assumption.
  - rewrite unshift_origin, peek_of_coord by assumption. assumption.
Qed.

(** Dilation or erosion by the one-voxel element reads the image itself. *)
Lemma dilation_origin (v : ndarray A) (border : bool) :
  ndi_binary_dilation v [origin] border = tabulate (shape v) (cell v).
Proof.
  apply tabulate_ext. intros p Hp. simpl.
  rewrite unshift_origin, peek_of_coord, orb_false_r by assumption. reflexivity.
Qed.

Lemma erosion_origin (v : ndarray A) (border : bool) :
  ndi_binary_erosion v [origin] border = tabulate (shape v) (cell v).
Proof.
  apply tabulate_ext. intros p Hp. simpl.
  rewrite shift_origin, peek_of_coord, andb_true_r by assumption. reflexivity.
Qed.

Lemma tabulate_cell (v : ndarray A) : wf v → tabulate (shape v) (cell v) = amap truthy v.
Proof.
  intros Hwf. apply ndarray_ext.
  - apply wf_tabulate.
  - apply wf_amap. assumption.
  - reflexivity.
  - intros p Hp. simpl in Hp. rewrite getitem_tabulate, getitem_amap by assumption.
    unfold cell. destruct (getitem_is_Some v p Hwf Hp) as [x ->]. reflexivity.
Qed.

End Peek.

(** Closing by an element that holds its centre contains the image, also on
    the border of the array, since the erosion pads with True. *)
Lemma closing_extensive {A} `{Truthy A} (v : ndarray A) (selem : ndarray Z) (p : coord) :
  in_bounds (shape v) p = true → cell v p = true →
  cell (binary_closing v selem) p = true.
Proof.
  intros Hp Hc. unfold binary_closing, binary_erosion, binary_dilation.
  set (S := footprint_offsets selem).
  unfold cell at 1. rewrite getitem_erosion by assumption. simpl.
  apply forallb_forall. intros o Ho.
  destruct (peek_cases (ndi_binary_dilation v S false) true (shift p o))
    as [[_ ->] | (q & _ & Hq & Eq & ->)]; [reflexivity |].
  simpl in Hq. unfold cell. rewrite getitem_dilation by assumption. simpl.
  apply existsb_exists. exists o. split; [assumption |].
  rewrite (unshift_shift p q o Eq), peek_of_coord by assumption. assumption.
Qed.

(** ** The flood of [binary_fill_holes] *)

Lemma count_true_le_length (l : list bool) : count_true l ≤ length l.
Proof. unfold count_true. apply length_filter. Qed.

Lemma count_true_mono (l1 l2 : list bool) :
  Forall2 (λ a b : bool, a = true → b = true) l1 l2 →
  count_true l1 ≤ count_true l2 ∧ (count_true l2 ≤ count_true l1 → l1 = l2).
Proof.
  unfold count_true. induction 1 as [| a b l1 l2 Hab _ [IHle IHeq]]; simpl.
  - split; [lia | reflexivity].
  - rewrite !filter_cons.
    destruct a, b; repeat case_decide; try congruence; simpl.
    + split; [lia |]. intros Hle. f_equal. apply IHeq. lia.
    + exfalso. discriminate (Hab eq_refl).
    + split; [lia |]. intros Hle. exfalso. lia.
    + split; [lia |]. intros Hle. f_equal. apply IHeq. lia.
Qed.

Lemma below_data (t t' : ndarray bool) :
  wf t → wf t' → shape t = shape t' → below t t' →
  Forall2 (λ a b : bool, a = true → b = true) (data t) (data t').
Proof.
  intros Hwf Hwf' Hsh Hb. apply Forall2_same_length_lookup_2.
  - unfold wf in *. congruence.
  - intros n x y Hx Hy ->.
    assert (Hn : n < size (shape t)).
    { rewrite <- Hwf. eapply lookup_lt_Some. exact Hx. }
    specialize (Hb (unravel (shape t) n)). unfold cell, getitem in Hb.
    rewrite <- Hsh in Hb.
    rewrite in_bounds_unravel, ravel_unravel, Hx, Hy in Hb by assumption.
    apply Hb. reflexivity.
Qed.

Section Flood.
Variables (mask : ndarray bool) (S : list offset) (border : bool).

Let step (t : ndarray bool) : ndarray bool := dilate_masked t mask S border.

Lemma shape_dilate_masked t : shape (step t) = shape t.
Proof. reflexivity. Qed.

Lemma wf_dilate_masked t : wf (step t).
Proof. apply wf_tabulate. Qed.

Lemma cell_dilate_masked t p :
  in_bounds (shape t) p = true →
  cell (step t) p
  = if cell mask p then existsb (λ o, peek t border (unshift p o)) S
    else cell t p.
Proof.
  intros Hp. unfold cell at 1, step, dilate_masked.
  rewrite getitem_tabulate by assumption. reflexivity.
Qed.

Lemma cell_in_bounds {A} `{Truthy A} (v : ndarray A) p :
  cell v p = true → in_bounds (shape v) p = true.
Proof.
  unfold cell. destruct (getitem v p) eqn:E; [| discriminate].
  intros _. eapply getitem_Some_in_bounds. exact E.
Qed.

Lemma dilate_masked_mono t t' :
  shape t = shape t' → below t t' → below (step t) (step t').
Proof.
  intros Hsh Hb p Hc.
  pose proof (cell_in_bounds _ _ Hc) as Hp. simpl in Hp.
  rewrite cell_dilate_masked in Hc by assumption.
  rewrite cell_dilate_masked by (rewrite <- Hsh; assumption).
  destruct (cell mask p); [| apply Hb; assumption].
  apply existsb_exists in Hc as (o & Ho & Hpk).
  apply existsb_exists. exists o. split; [assumption |].
  destruct (peek_cases t border (unshift p o))
    as [[E Hb'] | (q & E & _ & _ & Hq)].
  - unfold peek. rewrite <- Hsh, E. congruence.
  - unfold peek. rewrite <- Hsh, E. apply Hb. congruence.
Qed.

(** Any property kept by one masked dilation holds of the stable result. *)
Lemma dilate_until_stable_ind (P : ndarray bool → Prop) fuel t :
  P t → (∀ u, P u → P (step u)) →
  P (dilate_until_stable fuel t mask S border).
Proof.
  intros Ht Hstep. revert t Ht.
  induction fuel as [| fuel IH]; intros t Ht; cbn [dilate_until_stable];
    [assumption |].
  fold (step t). case_decide; [apply Hstep; assumption |].
  apply IH, Hstep. assumption.
Qed.

(** The loop stops at a fixed point of the masked dilation: the true
    cells only grow, and there are no more than [size] of them. *)
Lemma dilate_until_stable_fixed fuel t :
  wf t → below t (step t) →
  size (shape t) < count_true (data t) + fuel →
  step (dilate_until_stable fuel t mask S border)
  = dilate_until_stable fuel t mask S border.
Proof.
  revert t. induction fuel as [| fuel IH]; intros t Hwf Hb Hfuel.
  - pose proof (count_true_le_length (data t)). unfold wf in Hwf. lia.
  - cbn [dilate_until_stable]. fold (step t). case_decide as Heq.
    + rewrite Heq. exact Heq.
    + apply IH.
      * apply wf_dilate_masked.
      * apply dilate_masked_mono; [reflexivity | assumption].
      * destruct (count_true_mono (data t) (data (step t))) as [Hle Hinj].
        { apply below_data; auto using wf_dilate_masked. }
        rewrite shape_dilate_masked.
        destruct (decide (count_true (data (step t)) ≤ count_true (data t)))
          as [Hc | Hc]; [| lia].
        exfalso. apply Heq. specialize (Hinj Hc).
        destruct t as [sh d]; unfold step, dilate_masked, tabulate in *;
          simpl in *. congruence.
Qed.

End Flood.

(** ** The ball *)

Lemma elem_of_argwhere {A} (cond : A → bool) (v : ndarray A) (p : coord) :
  p ∈ argwhere cond v ↔ ∃ x, getitem v p = Some x ∧ cond x = true.
Proof.
  unfold argwhere. rewrite list_elem_of_filter, elem_of_ndindex. split.
  - intros [Hc _]. destruct (getitem v p) as [x |]; [eauto | discriminate].
  - intros (x & Hx & Hc). split.
    + rewrite Hx. exact Hc.
    + eapply getitem_Some_in_bounds. exact Hx.
Qed.

Lemma argwhere_in_bounds {A} (cond : A → bool) (v : ndarray A) (p : coord) :
  p ∈ argwhere cond v → in_bounds (shape v) p = true.
Proof.
  rewrite elem_of_argwhere. intros (x & Hx & _).
  eapply getitem_Some_in_bounds. exact Hx.
Qed.

(** The ball of any radius holds its centre. *)
Lemma ball_origin (radius : nat) : origin ∈ footprint_offsets (ball radius).
Proof.
  unfold footprint_offsets, ball. rewrite shape_tabulate.
  apply list_elem_of_fmap. exists (radius, radius, radius). split.
  - replace ((2 * radius + 1) / 2) with radius.
    + unfold origin. rewrite !Z.sub_diag. reflexivity.
    + apply (Nat.div_unique _ _ _ 1); lia.
  - apply elem_of_argwhere. exists 1%Z. split; [| reflexivity].
    rewrite getitem_tabulate.
    + cbv zeta. rewrite !Z.sub_diag.
      replace (_ <=? _)%Z with true; [reflexivity |].
      symmetry. apply Z.leb_le. nia.
    + apply in_bounds_spec. simpl. lia.
Qed.

(** The ball of radius 0 is the one-voxel element. *)
Lemma ball_0 : footprint_offsets (ball 0) = [origin].
Proof. reflexivity. Qed.

(** ** [refine_aseg] *)

(** Every voxel of the intermediate mask: 1 for a positive label, and
    otherwise the label as the cast to uint8 leaves it. *)
Lemma getitem_binarize (aseg : ndarray Z) (p : coord) :
  getitem (binarize aseg) p
  = (λ x, if (0 <? x)%Z then 1 else x mod 256)%Z <$> getitem aseg p.
Proof.
  unfold binarize, astype_uint8, where_set. rewrite !getitem_amap.
  destruct (getitem aseg p) as [x |]; simpl; [| reflexivity].
  destruct (0 <? x)%Z; reflexivity.
Qed.

Lemma refine_aseg_bool (aseg : ndarray Z) (ball_size : nat) :
  refine_aseg aseg ball_size = bool_astype_uint8 (refined_bool aseg ball_size).
Proof.
  unfold refine_aseg, refined_bool, astype_uint8, bool_astype_uint8.
  set (filled := binary_fill_holes _ _).
  unfold amap; simpl. f_equal.
  rewrite <- list_fmap_compose. apply list_fmap_ext.
  intros _ [] _; reflexivity.
Qed.

Lemma shape_dilate_until_stable fuel t mask S border :
  shape (dilate_until_stable fuel t mask S border) = shape t.
Proof.
  apply (dilate_until_stable_ind mask S border (λ u, shape u = shape t));
    [reflexivity | intros u Hu; exact Hu].
Qed.

Lemma wf_dilate_until_stable fuel t mask S border :
  wf t → wf (dilate_until_stable fuel t mask S border).
Proof.
  intros Hwf. apply (dilate_until_stable_ind mask S border wf);
    [assumption | intros u _; apply wf_tabulate].
Qed.

Lemma shape_fill_holes {A} `{Truthy A} (v : ndarray A) (selem : ndarray Z) :
  shape (binary_fill_holes v selem) = shape v.
Proof.
  unfold binary_fill_holes. rewrite shape_amap, shape_dilate_until_stable.
  reflexivity.
Qed.

Lemma wf_fill_holes {A} `{Truthy A} (v : ndarray A) (selem : ndarray Z) :
  wf (binary_fill_holes v selem).
Proof.
  unfold binary_fill_holes. apply wf_amap, wf_dilate_until_stable, wf_tabulate.
Qed.

Lemma shape_refine_aseg (aseg : ndarray Z) (ball_size : nat) :
  shape (refine_aseg aseg ball_size) = shape aseg.
Proof.
  rewrite refine_aseg_bool. unfold refined_bool, bool_astype_uint8.
  rewrite shape_amap, shape_fill_holes. reflexivity.
Qed.

Lemma wf_refine_aseg (aseg : ndarray Z) (ball_size : nat) :
  wf (refine_aseg aseg ball_size).
Proof. rewrite refine_aseg_bool. apply wf_amap, wf_fill_holes. Qed.

(** The flood of [binary_fill_holes]: it stays out of the image, and the
    loop ends on a fixed point of the masked dilation. *)
Lemma flood_spec {A} `{Truthy A} (v : ndarray A) (S : list offset) :
  let mask := amap (λ x, negb (truthy x)) v in
  let out := dilate_until_stable (Datatypes.S (size (shape mask)))
               (tabulate (shape mask) (λ _, false)) mask S true in
  wf out ∧ shape out = shape v
  ∧ (∀ p, cell v p = true → cell out p = false)
  ∧ dilate_masked out mask S true = out.
Proof.
  intros mask out. split; [| split; [| split]].
  - apply wf_dilate_until_stable, wf_tabulate.
  - unfold out. rewrite shape_dilate_until_stable. reflexivity.
  - intros p Hc. pose proof (cell_in_bounds _ _ Hc) as Hp.
    apply (dilate_until_stable_ind mask S true
             (λ u, shape u = shape v ∧ cell u p = false)).
    + split; [reflexivity |].
      unfold cell. rewrite getitem_tabulate by assumption. reflexivity.
    + intros u [Hsh Hu]. split; [exact Hsh |].
      rewrite cell_dilate_masked by (rewrite Hsh; assumption).
      replace (cell mask p) with false; [assumption |].
      unfold cell, mask. rewrite getitem_amap.
      unfold cell in Hc. destruct (getitem v p) as [x |]; simpl in *; [| discriminate].
      unfold truthy at 1, truthy_bool. rewrite Hc. reflexivity.
  - apply dilate_until_stable_fixed.
    + apply wf_tabulate.
    + intros p Hc. unfold cell in Hc.
      destruct (in_bounds (shape mask) p) eqn:Hp.
      * rewrite getitem_tabulate in Hc by assumption. discriminate.
      * rewrite getitem_out in Hc by assumption. discriminate.
    + simpl. lia.
Qed.

(** The flood never enters the image, so filling holes contains it. *)
Lemma fill_holes_extensive {A} `{Truthy A} (v : ndarray A) (selem : ndarray Z) (p : coord) :
  in_bounds (shape v) p = true → cell v p = true →
  cell (binary_fill_holes v selem) p = true.
Proof.
  intros Hp Hc.
  destruct (flood_spec v (footprint_offsets selem)) as (Hwf & Hsh & Hin & _).
  unfold binary_fill_holes.
  set (out := dilate_until_stable _ _ _ _ _) in *.
  specialize (Hin p Hc). unfold cell in *. rewrite getitem_amap.
  destruct (getitem_is_Some out p Hwf) as [b Hb]; [rewrite Hsh; assumption |].
  rewrite Hb in *. destruct b; [discriminate Hin | reflexivity].
Qed.

Lemma cell_bool_astype_uint8 (v : ndarray bool) (p : coord) :
  cell (bool_astype_uint8 v) p = cell v p.
Proof.
  unfold cell, bool_astype_uint8. rewrite getitem_amap.
  destruct (getitem v p) as [[] |]; reflexivity.
Qed.

Lemma getitem_refine_aseg (aseg : ndarray Z) (ball_size : nat) (p : coord) :
  in_bounds (shape aseg) p = true →
  getitem (refine_aseg aseg ball_size) p
  = Some (Z.b2z (cell (refined_bool aseg ball_size) p)).
Proof.
  intros Hp. rewrite refine_aseg_bool. unfold bool_astype_uint8.
  rewrite getitem_amap. unfold cell.
  destruct (getitem_is_Some (refined_bool aseg ball_size) p) as [b ->].
  - apply wf_fill_holes.
  - unfold refined_bool. rewrite shape_fill_holes. exact Hp.
  - reflexivity.
Qed.

(** ** Binarisation of the labels (claim C2) *)

(** C2, counterexample: a voxel labelled -1 is not zeroed by
    [bmask[bmask > 0] = 1]; the cast to uint8 turns it into 255. *)
Lemma binarize_negative_label :
  getitem (binarize (NdArray (1, 1, 1) [(-1)%Z])) (0, 0, 0) = Some 255%Z
  ∧ ¬ binarize_rule (NdArray (1, 1, 1) [(-1)%Z]).
Proof.
  split; [reflexivity |].
  intros Hrule. specialize (Hrule (0, 0, 0) (-1)%Z eq_refl). discriminate Hrule.
Qed.

(** C2, amended: for every voxel whose label is not negative, the
    intermediate mask is 1 exactly when the label is strictly greater than
    0, and 0 otherwise. *)
Theorem binarize_spec (aseg : ndarray Z) (p : coord) (x : Z) :
  getitem aseg p = Some x → (0 ≤ x)%Z →
  getitem (binarize aseg) p = Some (if (0 <? x)%Z then 1 else 0)%Z.
Proof.
  intros Hx Hpos. rewrite getitem_binarize, Hx. simpl.
  destruct (Z.ltb_spec 0 x); [reflexivity |].
  replace x with 0%Z by lia. reflexivity.
Qed.

(** [binarize_spec] at a voxel labelled 42 and at a voxel labelled 0. *)
Lemma binarize_spec_witness :
  (getitem (NdArray (1, 1, 2) [42; 0]%Z) (0, 0, 0) = Some 42%Z
   ∧ (0 ≤ 42)%Z
   ∧ getitem (binarize (NdArray (1, 1, 2) [42; 0]%Z)) (0, 0, 0) = Some 1%Z)
  ∧ (getitem (NdArray (1, 1, 2) [42; 0]%Z) (0, 0, 1) = Some 0%Z
     ∧ (0 ≤ 0)%Z
     ∧ getitem (binarize (NdArray (1, 1, 2) [42; 0]%Z)) (0, 0, 1) = Some 0%Z).
Proof.
  assert (H42 : (0 ≤ 42)%Z) by lia.
  assert (H0 : (0 ≤ 0)%Z) by lia.
  split; (split; [reflexivity |]); (split; [assumption |]).
  - exact (binarize_spec (NdArray (1, 1, 2) [42; 0]%Z) (0, 0, 0) 42%Z eq_refl H42).
  - exact (binarize_spec (NdArray (1, 1, 2) [42; 0]%Z) (0, 0, 1) 0%Z eq_refl H0).
Defined.

(** ** Monotonicity of [refine_aseg] (claim C3) *)

(** C3: every voxel with a positive label is 1 in the output of
    [refine_aseg], whatever the radius and wherever the voxel lies, the
    border of the volume included. *)
Theorem refine_aseg_monotone (aseg : ndarray Z) (ball_size : nat) (p : coord) (x : Z) :
  getitem aseg p = Some x → (0 < x)%Z →
  getitem (binarize aseg) p = Some 1%Z
  ∧ getitem (refine_aseg aseg ball_size) p = Some 1%Z.
Proof.
  intros Hx Hpos.
  pose proof (getitem_Some_in_bounds _ _ _ Hx) as Hp.
  assert (Hb : getitem (binarize aseg) p = Some 1%Z).
  { rewrite getitem_binarize, Hx. simpl.
    destruct (Z.ltb_spec 0 x); [reflexivity | lia]. }
  split; [exact Hb |].
  rewrite getitem_refine_aseg by assumption.
  replace (cell (refined_bool aseg ball_size) p) with true; [reflexivity |].
  symmetry. unfold refined_bool. apply fill_holes_extensive.
  - exact Hp.
  - rewrite cell_bool_astype_uint8. apply closing_extensive.
    + exact Hp.
    + unfold cell. rewrite Hb. reflexivity.
Qed.

(** [refine_aseg_monotone] at a voxel on the border of the volume. *)
Lemma refine_aseg_monotone_witness :
  getitem (NdArray (1, 1, 3) [42; 0; 0]%Z) (0, 0, 0) = Some 42%Z
  ∧ (0 < 42)%Z
  ∧ getitem (refine_aseg (NdArray (1, 1, 3) [42; 0; 0]%Z) 4) (0, 0, 0) = Some 1%Z.
Proof.
  split; [reflexivity |]. split; [reflexivity |].
  exact (proj2 (refine_aseg_monotone (NdArray (1, 1, 3) [42; 0; 0]%Z) 4
                  (0, 0, 0) 42%Z eq_refl eq_refl)).
Defined.

(** ** The loop over the candidate voxels *)

(** The loop body never reads the mask it writes. *)
Lemma pixel_step_verdict anat gm ants_segs ww zval refined pixel :
  pixel_step anat gm ants_segs ww zval refined pixel
  = v ← pixel_verdict anat gm ants_segs ww zval pixel;
    apply_verdict refined pixel v.
Proof.
  unfold pixel_step, pixel_verdict.
  destruct (getitem ants_segs pixel) as [a |]; simpl; [| reflexivity].
  destruct (a =? 2)%Z; [reflexivity |].
  destruct (existsb _ _); [| reflexivity].
  destruct (getitem anat pixel); reflexivity.
Qed.

Section Loop.
Variable decide_pixel : coord → option verdict.

Let body (refined : ndarray Z) (pixel : coord) : option (ndarray Z) :=
  v ← decide_pixel pixel; apply_verdict refined pixel v.

Lemma body_commute refined p q :
  (r ← body refined p; body r q) = (r ← body refined q; body r p).
Proof.
  destruct (decide (p = q)) as [-> | Hne]; [reflexivity |].
  unfold body.
  destruct (decide_pixel p) as [[| b] |], (decide_pixel q) as [[| c] |];
    simpl; try reflexivity.
  - destruct (setitem refined q c); reflexivity.
  - destruct (setitem refined p b); reflexivity.
  - apply setitem_commute. assumption.
  - destruct (setitem refined p b); reflexivity.
  - destruct (setitem refined q c); reflexivity.
Qed.

Lemma for_pixels_perm indices indices' refined :
  indices ≡ₚ indices' →
  for_pixels body indices refined = for_pixels body indices' refined.
Proof.
  intros Hperm. revert refined.
  induction Hperm as [| p l l' _ IH | p q l | l l' l'' _ IH _ IH'];
    intros refined; simpl.
  - reflexivity.
  - destruct (body refined p); simpl; [apply IH | reflexivity].
  - pose proof (body_commute refined q p) as Hc.
    destruct (body refined p) as [r |], (body refined q) as [r' |];
      simpl in *; try reflexivity.
    + destruct (body r' p), (body r q); simpl; congruence.
    + destruct (body r q); [discriminate | reflexivity].
    + destruct (body r' p); [discriminate | reflexivity].
  - rewrite IH. apply IH'.
Qed.

Lemma body_shape refined p r : body refined p = Some r → shape r = shape refined.
Proof.
  unfold body. destruct (decide_pixel p) as [[| b] |]; simpl; try discriminate.
  - intros [= <-]. reflexivity.
  - apply shape_setitem.
Qed.

Lemma body_wf refined p r : wf refined → body refined p = Some r → wf r.
Proof.
  unfold body. destruct (decide_pixel p) as [[| b] |]; simpl; try discriminate.
  - intros Hwf [= <-]. assumption.
  - apply wf_setitem.
Qed.

Lemma body_other refined p r q :
  body refined p = Some r → p ≠ q → getitem r q = getitem refined q.
Proof.
  unfold body. destruct (decide_pixel p) as [[| b] |]; simpl; try discriminate.
  - intros [= <-] _. reflexivity.
  - apply getitem_setitem_ne.
Qed.

Lemma for_pixels_shape indices refined r :
  for_pixels body indices refined = Some r → shape r = shape refined.
Proof.
  revert refined. induction indices as [| p l IH]; intros refined; simpl.
  - intros [= <-]. reflexivity.
  - destruct (body refined p) as [r' |] eqn:E; simpl; [| discriminate].
    intros Hr. rewrite (IH _ Hr). eapply body_shape. exact E.
Qed.

Lemma for_pixels_wf indices refined r :
  wf refined → for_pixels body indices refined = Some r → wf r.
Proof.
  revert refined. induction indices as [| p l IH]; intros refined Hwf; simpl.
  - intros [= <-]. assumption.
  - destruct (body refined p) as [r' |] eqn:E; simpl; [| discriminate].
    apply IH. eapply body_wf; eassumption.
Qed.

(** The loop runs to its end when no voxel raises. *)
Lemma for_pixels_is_Some indices refined :
  (∀ p, p ∈ indices →
        in_bounds (shape refined) p = true ∧ is_Some (decide_pixel p)) →
  is_Some (for_pixels body indices refined).
Proof.
  revert refined. induction indices as [| p l IH]; intros refined Hall; simpl.
  - eauto.
  - destruct (Hall p) as [Hp [v Hv]]; [left |].
    assert (Hb : is_Some (body refined p)).
    { unfold body. rewrite Hv. simpl. destruct v; simpl; [eauto |].
      apply setitem_is_Some. assumption. }
    destruct Hb as [r Hr]. rewrite Hr. simpl. apply IH.
    intros q Hq. rewrite (body_shape _ _ _ Hr). apply Hall. right. assumption.
Qed.

(** A voxel that is no candidate, or that the body leaves alone, keeps
    its value. *)
Lemma for_pixels_untouched indices refined r q :
  for_pixels body indices refined = Some r →
  q ∉ indices ∨ decide_pixel q = Some Leave →
  getitem r q = getitem refined q.
Proof.
  revert refined. induction indices as [| p l IH]; intros refined; simpl.
  - intros [= <-] _. reflexivity.
  - destruct (body refined p) as [r' |] eqn:E; simpl; [| discriminate].
    intros Hr Hq. rewrite (IH r' Hr).
    + destruct (decide (p = q)) as [-> | Hne]; [| eapply body_other; eassumption].
      destruct Hq as [Hq | Hq]; [exfalso; apply Hq; left |].
      unfold body in E. rewrite Hq in E. simpl in E. congruence.
    + destruct Hq as [Hq | Hq]; [left | right; assumption].
      intros Hin. apply Hq. right. assumption.
Qed.



End Loop.

Lemma for_pixels_ext (body body' : ndarray Z → coord → option (ndarray Z))
    (indices : list coord) (refined : ndarray Z) :
  (∀ p r, p ∈ indices → body r p = body' r p) →
  for_pixels body indices refined = for_pixels body' indices refined.
Proof.
  revert refined. induction indices as [| p l IH]; intros refined Hext; simpl.
  - reflexivity.
  - rewrite (Hext p refined) by left.
    destruct (body' refined p); simpl; [| reflexivity].
    apply IH. intros q r Hq. apply Hext. right. assumption.
Qed.

(** ** Order of the per-voxel evaluation (claim C9) *)

(** C9: the body of the loop decides from the template, the anatomical
    volume and the auxiliary segmentation alone, never from the mask it
    writes; so running the loop over any permutation of the index sequence
    ends with the same mask (or raises just the same). *)
Theorem loop_order_independent (anat gm : ndarray Q) (ants_segs : ndarray Z)
    (ww : Z) (zval : Q) (indices indices' : list coord) (refined : ndarray Z) :
  indices ≡ₚ indices' →
  (∀ r pixel,
     pixel_step anat gm ants_segs ww zval r pixel
     = v ← pixel_verdict anat gm ants_segs ww zval pixel; apply_verdict r pixel v)
  ∧ for_pixels (pixel_step anat gm ants_segs ww zval) indices refined
    = for_pixels (pixel_step anat gm ants_segs ww zval) indices' refined.
Proof.
  intros Hperm. split; [intros r pixel; apply pixel_step_verdict |].
  rewrite (for_pixels_ext (pixel_step anat gm ants_segs ww zval) _ indices)
    by (intros p r _; apply pixel_step_verdict).
  rewrite (for_pixels_ext (pixel_step anat gm ants_segs ww zval) _ indices')
    by (intros p r _; apply pixel_step_verdict).
  apply for_pixels_perm. assumption.
Qed.

(** ** The candidate shell (claim C10) *)

Lemma getitem_lookup {A} (v : ndarray A) (p : coord) (x : A) :
  getitem v p = Some x → data v !! ravel (shape v) p = Some x.
Proof. unfold getitem. destruct (in_bounds (shape v) p); [trivial | discriminate]. Qed.

Lemma getitem_candidate_shell (refined selem : ndarray Z) (p : coord) (x : Z) :
  getitem refined p = Some x →
  getitem (candidate_shell refined selem) p
  = Some ((Z.b2z (cell (binary_dilation refined selem) p) - x) mod 256)%Z.
Proof.
  intros Hx. pose proof (getitem_Some_in_bounds _ _ _ Hx) as Hp.
  assert (Hd : getitem (binary_dilation refined selem) p
               = Some (cell (binary_dilation refined selem) p)).
  { unfold cell, binary_dilation. rewrite getitem_dilation by assumption. reflexivity. }
  apply getitem_lookup in Hd, Hx.
  change (shape (binary_dilation refined selem)) with (shape refined) in Hd.
  unfold candidate_shell, subtract_uint8, getitem. cbn [shape data].
  change (shape (binary_dilation refined selem)) with (shape refined).
  rewrite Hp, lookup_zip_with, Hd. simpl. rewrite Hx. reflexivity.
Qed.

(** The shell around the output of [refine_aseg], for any label volume. *)
Lemma shell_of_refined (aseg : ndarray Z) (bw : nat) (p : coord) :
  in_bounds (shape aseg) p = true →
  let refined := refine_aseg aseg 4 in
  let dilated := binary_dilation refined (ball bw) in
  let newrefmask := candidate_shell refined (ball bw) in
  (cell refined p = true → cell dilated p = true)
  ∧ getitem newrefmask p = Some (Z.b2z (cell dilated p && negb (cell refined p)))
  ∧ (p ∈ argwhere (λ x, 0 <? x)%Z newrefmask → getitem refined p = Some 0%Z).
Proof.
  intros Hp refined dilated newrefmask.
  assert (Hsh : in_bounds (shape refined) p = true).
  { unfold refined. rewrite shape_refine_aseg. assumption. }
  assert (Hsup : cell refined p = true → cell dilated p = true).
  { intros Hc. apply dilation_extensive; [apply ball_origin | assumption ..]. }
  pose proof (getitem_refine_aseg aseg 4 p Hp) as Hr. fold refined in Hr.
  set (b := cell (refined_bool aseg 4) p) in Hr.
  assert (Hc : cell refined p = b).
  { unfold cell. rewrite Hr. destruct b; reflexivity. }
  assert (Hshell : getitem newrefmask p
                   = Some (Z.b2z (cell dilated p && negb (cell refined p)))).
  { unfold newrefmask. rewrite (getitem_candidate_shell _ _ _ _ Hr).
    fold dilated. f_equal. rewrite Hc in *.
    destruct b; simpl in *.
    - rewrite Hsup by reflexivity. reflexivity.
    - destruct (cell dilated p); reflexivity. }
  split; [exact Hsup |]. split; [exact Hshell |].
  rewrite elem_of_argwhere. intros (x & Hx & Hpos).
  rewrite Hshell in Hx. injection Hx as <-.
  rewrite Hr. rewrite Hc in Hpos.
  destruct b; simpl in *; [| reflexivity].
  rewrite andb_false_r in Hpos. discriminate.
Qed.

(** C10: in [grow_mask] the dilation by the ball contains the base mask, so
    the subtraction [dilated - refined] never wraps around in uint8: it is 1
    on the voxels of the dilation outside the base mask and 0 elsewhere, and
    no candidate lies inside the base mask. *)
Theorem candidate_shell_no_underflow (aseg : ndarray Z) (bw : nat) (p : coord) :
  in_bounds (shape aseg) p = true →
  let refined := refine_aseg (collapse_hemispheres aseg) 4 in
  let dilated := binary_dilation refined (ball bw) in
  let newrefmask := candidate_shell refined (ball bw) in
  (cell refined p = true → cell dilated p = true)
  ∧ getitem newrefmask p = Some (Z.b2z (cell dilated p && negb (cell refined p)))
  ∧ (p ∈ candidates aseg bw → getitem refined p = Some 0%Z).
Proof.
  intros Hp. apply (shell_of_refined (collapse_hemispheres aseg) bw p). exact Hp.
Qed.

(** ** Steps of [grow_mask] before the loop *)

Lemma shape_collapse (aseg : ndarray Z) :
  shape (collapse_hemispheres aseg) = shape aseg.
Proof. reflexivity. Qed.

(** Relabelling 42 as 3 changes no voxel of the binarised mask. *)
Lemma binarize_collapse (aseg : ndarray Z) :
  binarize (collapse_hemispheres aseg) = binarize aseg.
Proof.
  unfold binarize, collapse_hemispheres, astype_uint8, where_set, amap; simpl.
  f_equal. rewrite <- !list_fmap_compose. apply list_fmap_ext.
  intros _ x _; simpl. destruct (Z.eqb_spec x 42) as [-> |]; reflexivity.
Qed.

Lemma refine_aseg_collapse (aseg : ndarray Z) (ball_size : nat) :
  refine_aseg (collapse_hemispheres aseg) ball_size = refine_aseg aseg ball_size.
Proof. unfold refine_aseg. rewrite binarize_collapse. reflexivity. Qed.

(** The template is built exactly when [anat] has the shape of [aseg]. *)
Lemma gm_template_is_Some (anat : ndarray Q) (aseg : ndarray Z) :
  shape anat = shape aseg → is_Some (gm_template anat aseg).
Proof.
  intros Hsh. unfold gm_template, putmask. rewrite shape_amap.
  case_decide; [eauto | congruence].
Qed.

Lemma candidates_in_bounds (aseg : ndarray Z) (bw : nat) (p : coord) :
  p ∈ candidates aseg bw → in_bounds (shape aseg) p = true.
Proof.
  intros Hp. apply argwhere_in_bounds in Hp.
  change (shape (candidate_shell ?r ?s)) with (shape r) in Hp.
  rewrite shape_refine_aseg in Hp. exact Hp.
Qed.

Lemma amap_truthy_bool_astype_uint8 (v : ndarray bool) :
  amap truthy (bool_astype_uint8 v) = v.
Proof.
  destruct v as [sh d]. unfold bool_astype_uint8, amap; simpl. f_equal.
  rewrite <- list_fmap_compose. rewrite <- (list_fmap_id d) at 2.
  apply list_fmap_ext. intros _ [] _; reflexivity.
Qed.

(** ** Radius 0 (claim C8) *)

Section RadiusZero.
Variable refined : ndarray Z.
Hypothesis refined_wf : wf refined.
Hypothesis refined_binary : ∀ p x, getitem refined p = Some x → x = 0%Z ∨ x = 1%Z.

Lemma dilation_ball_0 : binary_dilation refined (ball 0) = amap truthy refined.
Proof.
  unfold binary_dilation. rewrite ball_0, dilation_origin.
  apply tabulate_cell. exact refined_wf.
Qed.

Lemma erosion_ball_0 : binary_erosion refined (ball 0) = amap truthy refined.
Proof.
  unfold binary_erosion. rewrite ball_0, erosion_origin.
  apply tabulate_cell. exact refined_wf.
Qed.

Lemma opening_ball_0 : binary_opening refined (ball 0) = amap truthy refined.
Proof.
  unfold binary_opening. rewrite erosion_ball_0.
  unfold binary_dilation. rewrite ball_0, dilation_origin.
  rewrite tabulate_cell by (apply wf_amap; exact refined_wf).
  unfold amap; simpl. f_equal.
  rewrite <- list_fmap_compose. apply list_fmap_ext. reflexivity.
Qed.

Lemma shell_ball_0 :
  argwhere (λ x, 0 <? x)%Z (candidate_shell refined (ball 0)) = [].
Proof.
  apply elem_of_nil_inv. intros p. rewrite elem_of_argwhere.
  intros (y & Hy & Hpos).
  pose proof (getitem_Some_in_bounds _ _ _ Hy) as Hp.
  change (shape (candidate_shell refined (ball 0))) with (shape refined) in Hp.
  destruct (getitem_is_Some refined p refined_wf Hp) as [x Hx].
  rewrite (getitem_candidate_shell _ _ _ _ Hx) in Hy. injection Hy as <-.
  rewrite dilation_ball_0 in Hpos.
  unfold cell in Hpos. rewrite getitem_amap, Hx in Hpos. simpl in Hpos.
  destruct (refined_binary p x Hx) as [-> | ->]; discriminate Hpos.
Qed.

End RadiusZero.

Lemma refine_aseg_binary (aseg : ndarray Z) (ball_size : nat) (p : coord) (x : Z) :
  getitem (refine_aseg aseg ball_size) p = Some x → x = 0%Z ∨ x = 1%Z.
Proof.
  intros Hx. pose proof (getitem_Some_in_bounds _ _ _ Hx) as Hp.
  rewrite shape_refine_aseg in Hp.
  rewrite (getitem_refine_aseg _ _ _ Hp) in Hx. injection Hx as <-.
  destruct (cell _ p); auto.
Qed.

(** C8: with [bw = 0] the ball is the single voxel at its centre, the
    dilation and the opening read the mask back, no voxel is a candidate,
    and the mask returned by [grow_mask] is the output of [refine_aseg] on
    the same label volume. *)
Theorem grow_mask_radius_0 (inp : Inputs) (ww : Z) (zval : Q) :
  shape (anat inp) = shape (aseg inp) →
  let refined := refine_aseg (collapse_hemispheres (aseg inp)) 4 in
  footprint_offsets (ball 0) = [origin]
  ∧ binary_dilation refined (ball 0) = amap truthy refined
  ∧ candidates (aseg inp) 0 = []
  ∧ binary_opening refined (ball 0) = amap truthy refined
  ∧ ∃ mask inp',
      grow_mask inp ww zval 0 = Some (mask, inp')
      ∧ bool_astype_uint8 mask = refine_aseg (aseg inp) 4.
Proof.
  intros Hsh refined.
  assert (Hwf : wf refined) by apply wf_refine_aseg.
  assert (Hbin : ∀ p x, getitem refined p = Some x → x = 0%Z ∨ x = 1%Z)
    by (intros p x; apply refine_aseg_binary).
  split; [apply ball_0 |].
  split; [apply dilation_ball_0; assumption |].
  split; [apply shell_ball_0; assumption |].
  split; [apply opening_ball_0; assumption |].
  destruct (gm_template_is_Some (anat inp) (collapse_hemispheres (aseg inp)))
    as [gm Hgm]; [rewrite shape_collapse; assumption |].
  exists (amap truthy refined), (MkInputs (anat inp) (collapse_hemispheres (aseg inp))
                                  (ants_segs inp)).
  split.
  - unfold grow_mask, grow_refined. rewrite Hgm. simpl.
    fold refined. rewrite (shell_ball_0 refined Hwf Hbin). simpl.
    rewrite (opening_ball_0 refined Hwf). reflexivity.
  - unfold refined. rewrite refine_aseg_collapse, refine_aseg_bool.
    rewrite amap_truthy_bool_astype_uint8. reflexivity.
Qed.

(** ** All-zero auxiliary segmentation (claim C6) *)

Lemma getitem_zeros_like {A} (v : ndarray A) (p : coord) :
  in_bounds (shape v) p = true → getitem (zeros_like v) p = Some 0%Z.
Proof.
  intros Hp. unfold getitem, zeros_like; simpl. rewrite Hp.
  apply lookup_replicate_2, ravel_lt. assumption.
Qed.

Lemma effective_ants_zero (inp : Inputs) (p : coord) :
  ants_all_zero inp → in_bounds (shape (aseg inp)) p = true →
  getitem (effective_ants inp) p = Some 0%Z.
Proof.
  unfold ants_all_zero, effective_ants.
  destruct (ants_segs inp) as [a |]; [| intros _; apply getitem_zeros_like].
  intros (Hwf & Hsh & Hzero) Hp. rewrite <- Hsh in Hp.
  destruct (getitem_is_Some a p Hwf Hp) as [x Hx]. rewrite Hx. f_equal.
  rewrite Forall_forall in Hzero. apply Hzero.
  eapply list_elem_of_lookup_2, getitem_lookup, Hx.
Qed.

(** C6: when [ants_segs] is omitted or all zero, no candidate voxel takes
    the short-circuit branch, and [grow_mask] returns what the variant
    without that branch returns. *)
Theorem grow_mask_zero_ants (inp : Inputs) (ww : Z) (zval : Q) (bw : nat) :
  ants_all_zero inp →
  (∀ p, p ∈ candidates (aseg inp) bw →
        getitem (effective_ants inp) p = Some 0%Z)
  ∧ grow_mask inp ww zval bw = grow_mask_stat inp ww zval bw.
Proof.
  intros Hzero.
  assert (Hcand : ∀ p, p ∈ candidates (aseg inp) bw →
                       getitem (effective_ants inp) p = Some 0%Z).
  { intros p Hp. apply effective_ants_zero; [assumption |].
    eapply candidates_in_bounds. exact Hp. }
  split; [exact Hcand |].
  unfold grow_mask, grow_mask_stat, grow_refined, grow_refined_stat.
  fold (effective_ants inp).
  destruct (gm_template (anat inp) (collapse_hemispheres (aseg inp))) as [gm |];
    simpl; [| reflexivity].
  fold (candidates (aseg inp) bw).
  rewrite (for_pixels_ext
             (pixel_step (anat inp) gm (effective_ants inp) ww zval)
             (pixel_step_stat (anat inp) gm ww zval)); [reflexivity |].
  intros p r Hp. unfold pixel_step, pixel_step_stat.
  rewrite (Hcand p Hp). reflexivity.
Qed.

(** ** A very large [zval] (claim C7) *)

Lemma Qltb_lt (x y : Q) : Qltb x y = true ↔ (x < y)%Q.
Proof.
  unfold Qltb. rewrite negb_true_iff. split.
  - intros Hle. apply Qnot_le_lt. intros Hyx.
    apply Qle_bool_iff in Hyx. congruence.
  - intros Hlt. destruct (Qle_bool y x) eqn:E; [| reflexivity].
    apply Qle_bool_iff in E. exfalso. eapply Qlt_not_le; eassumption.
Qed.

(** The floor under [sigma] is the binary64 number written [1.0e-5], which
    is not below 1/100000. *)
Lemma sigma_floor_binary64 :
  (Q_of_float 0x1.4f8b588e368f1p-17 == sigma_floor)%Q.
Proof. vm_compute. reflexivity. Qed.



(** Where the exact test and the rounded one part.  For a window of
    deviation 0, [mu = 1024], [x = 179.18896541014806] and
    [zval = 84481103.458985195], the bound [100000 * abs(x - mu)] lies under
    [zval] and the exact test passes, but binary64 rounds the quotient up to
    [zval] and the source leaves the voxel out.  For [x = 70], [mu = 100] and
    [zval = 3000000] the two agree: the quotient by the floor is under
    3000000, rounded or not. *)
Example zstat_rounding :
  let x := 0x1.6660c01301528p+7%float in
  let mu := 1024%float in
  let floor := 0x1.4f8b588e368f1p-17%float in
  let zval := 0x1.424513dd60037p+26%float in
  (Qabs (Q_of_float x - Q_of_float mu) * 100000 < Q_of_float zval)%Q
  ∧ zstat_below (Q_of_float x) (Q_of_float mu) 0 (Q_of_float zval) = true
  ∧ zstat_binary64 x mu floor zval = false
  ∧ zstat_below 70 100 0 3000000 = true
  ∧ zstat_binary64 70 100 floor 3000000 = true.
Proof. repeat split; vm_compute; reflexivity. Qed.

Lemma square_Qmax (s f : Q) :
  (0 <= s)%Q → (0 <= f)%Q →
  (Qmax s f * Qmax s f == Qmax (s * s) (f * f))%Q.
Proof.
  intros Hs Hf.
  destruct (Q.max_spec s f) as [[Hlt ->] | [Hle ->]].
  - rewrite Q.max_r; [reflexivity | nra].
  - rewrite Q.max_l; [reflexivity | nra].
Qed.

(** [zstat_below] is the comparison of the source: whenever the standard
    deviation [s] of the window is a rational, the test holds exactly when
    [abs(x - mu) / max(s, 1.0e-5) < zval]. *)
Lemma zstat_below_spec (x mu var zval s : Q) :
  (0 <= s)%Q → (s * s == var)%Q →
  zstat_below x mu var zval = true
  ↔ (Qabs (x - mu) / Qmax s sigma_floor < zval)%Q.
Proof.
  intros Hs Hvar. unfold zstat_below.
  rewrite andb_true_iff, !Qltb_lt.
  assert (Hf : (0 < sigma_floor)%Q) by reflexivity.
  pose proof (square_Qmax s sigma_floor Hs (Qlt_le_weak _ _ Hf)) as Hmax.
  rewrite Hvar in Hmax. rewrite <- Hmax. clear Hmax.
  pose proof (Q.le_max_r s sigma_floor) as Hge.
  set (sigma := Qmax s sigma_floor) in *.
  assert (Hpos : (0 < sigma)%Q) by (eapply Qlt_le_trans; eassumption).
  pose proof (Qabs_nonneg (x - mu)) as Hnn.
  assert (Hsq : ((x - mu) * (x - mu) == Qabs (x - mu) * Qabs (x - mu))%Q).
  { apply Qabs_case; intros _; ring. }
  rewrite Hsq. set (t := Qabs (x - mu)) in *.
  assert (Hq : (sigma * (t / sigma) == t)%Q).
  { apply Qmult_div_r. intros E. rewrite E in Hpos. discriminate Hpos. }
  set (q := (t / sigma)%Q) in *.
  assert (Hq0 : (0 <= q)%Q).
  { destruct (Qlt_le_dec q 0) as [Hneg |]; [| assumption]. exfalso. nra. }
  rewrite <- Hq. split.
  - intros [Hz Hlt].
    destruct (Qlt_le_dec q zval) as [| Hle]; [assumption |]. exfalso.
    assert ((zval * zval <= q * q)%Q) by nra.
    assert ((0 < sigma * sigma)%Q) by nra.
    nra.
  - intros Hlt. split; [lra |].
    assert ((q * q < zval * zval)%Q) by nra.
    assert ((0 < sigma * sigma)%Q) by nra.
    nra.
Qed.

Lemma effective_ants_is_Some (inp : Inputs) (p : coord) :
  ants_on_grid inp → in_bounds (shape (aseg inp)) p = true →
  is_Some (getitem (effective_ants inp) p).
Proof.
  unfold ants_on_grid, effective_ants.
  destruct (ants_segs inp) as [a |].
  - intros [Hwf Hsh] Hp. apply getitem_is_Some; [assumption |].
    rewrite Hsh. assumption.
  - intros _ Hp. rewrite getitem_zeros_like by assumption. eauto.
Qed.

Lemma gm_template_shape (anat : ndarray Q) (aseg : ndarray Z) (gm : ndarray Q) :
  gm_template anat aseg = Some gm → shape anat = shape aseg ∧ shape gm = shape anat.
Proof.
  unfold gm_template, putmask. rewrite shape_amap.
  case_decide as Hsh; [| discriminate]. intros [= <-]. auto.
Qed.

(** No candidate raises when the arrays lie on one grid. *)
Lemma pixel_verdict_is_Some (inp : Inputs) (gm : ndarray Q) (ww : Z) (zval : Q)
    (p : coord) :
  wf (anat inp) → shape (anat inp) = shape (aseg inp) → ants_on_grid inp →
  in_bounds (shape (aseg inp)) p = true →
  is_Some (pixel_verdict (anat inp) gm (effective_ants inp) ww zval p).
Proof.
  intros Hwf Hsh Hants Hp. unfold pixel_verdict.
  destruct (effective_ants_is_Some inp p Hants Hp) as [a ->]. simpl.
  destruct (a =? 2)%Z; [eauto |].
  destruct (existsb _ _); [| eauto].
  destruct (getitem_is_Some (anat inp) p Hwf) as [x ->]; [| simpl; eauto].
  rewrite Hsh. assumption.
Qed.





(** ** Effects on the caller's arrays (claim C1) *)

(** What [grow_mask] leaves in the caller's arrays: [anat] and [ants_segs]
    as they were, [aseg] with every 42 overwritten by 3. *)
Lemma grow_mask_effect (inp : Inputs) (ww : Z) (zval : Q) (bw : nat)
    (mask : ndarray bool) (inp' : Inputs) :
  grow_mask inp ww zval bw = Some (mask, inp') →
  anat inp' = anat inp
  ∧ ants_segs inp' = ants_segs inp
  ∧ aseg inp' = collapse_hemispheres (aseg inp).
Proof.
  unfold grow_mask, grow_refined.
  destruct (gm_template _ _) as [gm |]; simpl; [| discriminate].
  destruct (for_pixels _ _ _) as [refined |]; simpl; [| discriminate].
  intros [= _ <-]. auto.
Qed.

(** C1, the code at the failing input: after [grow_mask] returns on
    [shelf], the caller's [aseg] holds 3 at the voxel that held 42. *)
Theorem grow_mask_overwrites_aseg :
  getitem (aseg shelf) (0, 0, 8) = Some 42%Z
  ∧ ∃ mask inp',
      grow_mask shelf 7 2 4 = Some (mask, inp')
      ∧ getitem (aseg inp') (0, 0, 8) = Some 3%Z
      ∧ aseg inp' ≠ aseg shelf.
Proof.
  split; [reflexivity |].
  destruct (grow_mask shelf 7 2 4) as [[mask inp'] |] eqn:E;
    [| vm_compute in E; discriminate].
  exists mask, inp'. split; [reflexivity |].
  destruct (grow_mask_effect _ _ _ _ _ _ E) as (_ & _ & ->).
  split; [reflexivity | discriminate].
Qed.

(** ** The window of the statistical test (claim C5) *)

Lemma window_of_axes (gm : ndarray Q) (i j k : nat) (ww : Z) :
  window_of gm (i, j, k) ww
  = NdArray (length (window_axis (shape gm).1.1 i ww),
             length (window_axis (shape gm).1.2 j ww),
             length (window_axis (shape gm).2 k ww))
      (omap (getitem gm)
         (a ← window_axis (shape gm).1.1 i ww;
          b ← window_axis (shape gm).1.2 j ww;
          c ← window_axis (shape gm).2 k ww; [(a, b, c)])).
Proof. unfold window_of, slice3. destruct (shape gm) as [[nx ny] nz]. reflexivity. Qed.

(** A slice never reaches outside its axis. *)
Lemma slice_indices_lt (n : nat) (start stop : Z) (x : nat) :
  x ∈ slice_indices n start stop → x < n.
Proof.
  unfold slice_indices, slice_bound. rewrite elem_of_seq.
  destruct (Z.ltb_spec start 0), (Z.ltb_spec stop 0); lia.
Qed.

(** Away from the low edge the slice is the half-open range from [p - ww]
    to [p + ww], cut at the end of the axis. *)
Lemma window_axis_interior (n p w : nat) :
  w ≤ p → p < n →
  window_axis n p (Z.of_nat w) = seq (p - w) (Nat.min (p + w) n - (p - w)).
Proof.
  intros Hw Hp. unfold window_axis, slice_indices, slice_bound.
  destruct (Z.ltb_spec (Z.of_nat p - Z.of_nat w) 0); [lia |].
  destruct (Z.ltb_spec (Z.of_nat p + Z.of_nat w) 0); [lia |].
  f_equal; lia.
Qed.

(** C5, counterexample: on an axis of 16 voxels with [ww = 2], the window
    around voxel 5 stops at voxel 6 and does not hold [p + ww]; around
    voxel 15 it is cut at the edge of the array, and around voxel 1 the
    negative start counts from the end, which leaves the window empty.
    No read is out of range. *)
Lemma window_is_clipped :
  window_axis 16 5 2 = [3; 4; 5; 6]
  ∧ Z.of_nat <$> window_axis 16 5 2 ≠ claimed_axis 5 2
  ∧ window_of ramp (0, 0, 15) 2 = NdArray (1, 1, 3) [13%Q; 14%Q; 15%Q]
  ∧ Z.of_nat <$> window_axis 16 15 2 ≠ claimed_axis 15 2
  ∧ window_of ramp (0, 0, 1) 2 = NdArray (1, 1, 0) [].
Proof. repeat split; solve [reflexivity | vm_compute; discriminate]. Qed.

(** C5, amended: for a voxel at least [ww] away from the low edge on every
    axis, the window read from the template is the box of the positions
    from [p - ww] up to but excluding [p + ww] on each axis, cut at the
    high edge of the volume; every position read lies inside the volume. *)
Theorem window_extraction (gm : ndarray Q) (i j k w : nat) :
  in_bounds (shape gm) (i, j, k) = true → w ≤ i → w ≤ j → w ≤ k →
  let axis (n p : nat) := seq (p - w) (Nat.min (p + w) n - (p - w)) in
  let box := a ← axis (shape gm).1.1 i; b ← axis (shape gm).1.2 j;
             c ← axis (shape gm).2 k; [(a, b, c)] in
  window_of gm (i, j, k) (Z.of_nat w)
  = NdArray (length (axis (shape gm).1.1 i), length (axis (shape gm).1.2 j),
             length (axis (shape gm).2 k))
      (omap (getitem gm) box)
  ∧ ∀ q, q ∈ box → in_bounds (shape gm) q = true.
Proof.
  intros Hp Hi Hj Hk axis box.
  apply in_bounds_spec in Hp. simpl in Hp. destruct Hp as (Hx & Hy & Hz).
  split.
  - rewrite window_of_axes.
    rewrite !window_axis_interior by assumption. reflexivity.
  - intros [[a b] c]. unfold box.
    rewrite list_elem_of_bind. intros (a' & Hq & Ha).
    rewrite list_elem_of_bind in Hq. destruct Hq as (b' & Hq & Hb).
    rewrite list_elem_of_bind in Hq. destruct Hq as (c' & Hq & Hc).
    apply list_elem_of_singleton in Hq. injection Hq as -> -> ->.
    unfold axis in *. rewrite elem_of_seq in Ha, Hb, Hc.
    apply in_bounds_spec. simpl. lia.
Qed.

(** ** Fixed points of [refine_aseg] (claim C4) *)




(** Filling the holes of a mask that has none gives the mask back. *)
Lemma fill_holes_hole_free {A} `{Truthy A} (v : ndarray A) (selem : ndarray Z) :
  wf v → hole_free v selem → binary_fill_holes v selem = amap truthy v.
Proof.
  intros Hwf Hfree.
  destruct (flood_spec v (footprint_offsets selem)) as (Hwfo & Hsho & Hin & Hfix).
  unfold binary_fill_holes.
  set (mask := amap (λ x, negb (truthy x)) v) in *.
  set (S := footprint_offsets selem) in *.
  set (out := dilate_until_stable _ _ _ _ _) in *.
  assert (Hopen : ∀ p, open_to_outside v S p → cell out p = true).
  { assert (Hmask : ∀ p, in_bounds (shape v) p = true → cell v p = false →
                         cell mask p = true).
    { intros p Hp Hc. unfold cell in *. unfold mask. rewrite getitem_amap.
      destruct (getitem_is_Some v p Hwf Hp) as [x Hx]. rewrite Hx in *.
      simpl in *. unfold truthy at 1, truthy_bool. rewrite Hc. reflexivity. }
    induction 1 as [p o Hp Hc Ho Hout | p o q Hp Hc Ho Hq _ IH];
      rewrite <- Hfix;
      (rewrite cell_dilate_masked by (rewrite Hsho; assumption));
      rewrite (Hmask p Hp Hc); apply existsb_exists; exists o;
      (split; [apply list_elem_of_In; assumption |]);
      unfold peek; rewrite Hsho.
    - rewrite Hout. reflexivity.
    - rewrite Hq. exact IH. }
  apply ndarray_ext.
  - apply wf_amap. assumption.
  - apply wf_amap. assumption.
  - rewrite !shape_amap. assumption.
  - intros p Hp. rewrite shape_amap, Hsho in Hp. rewrite !getitem_amap.
    destruct (getitem_is_Some out p Hwfo) as [b Hb]; [rewrite Hsho; assumption |].
    destruct (getitem_is_Some v p Hwf Hp) as [x Hx].
    rewrite Hb, Hx. simpl. f_equal.
    destruct (truthy x) eqn:Hx'.
    + destruct b; [| reflexivity].
      specialize (Hin p). unfold cell in Hin. rewrite Hx, Hb in Hin.
      specialize (Hin Hx'). cbv in Hin. discriminate Hin.
    + destruct b; [reflexivity |].
      assert (Hc : cell v p = false) by (unfold cell; rewrite Hx; exact Hx').
      specialize (Hopen p (Hfree p Hp Hc)). unfold cell in Hopen.
      rewrite Hb in Hopen. cbv in Hopen. discriminate Hopen.
Qed.




(** ** The theorems at concrete inputs *)


(** [window_extraction] at a voxel whose window is cut at the high edge of
    the last axis. *)
Lemma window_extraction_witness :
  in_bounds (shape cube) (2, 2, 4) = true
  ∧ 2 ≤ 2 ∧ 2 ≤ 2 ∧ 2 ≤ 4
  ∧ shape (window_of cube (2, 2, 4) 2) = (4, 4, 3).
Proof.
  assert (H1 : in_bounds (shape cube) (2, 2, 4) = true) by reflexivity.
  assert (H2 : 2 ≤ 2) by lia.
  assert (H3 : 2 ≤ 4) by lia.
  repeat (split; [assumption |]).
  exact (f_equal shape (proj1 (window_extraction cube 2 2 4 2 H1 H2 H2 H3))).
Defined.

(** [grow_mask_zero_ants] with an auxiliary segmentation given and all zero. *)
Lemma grow_mask_zero_ants_witness :
  ants_all_zero shelf_zero_ants
  ∧ grow_mask shelf_zero_ants 2 2 1 = grow_mask_stat shelf_zero_ants 2 2 1.
Proof.
  assert (H1 : ants_all_zero shelf_zero_ants).
  { split; [reflexivity |]. split; [reflexivity |]. repeat constructor. }
  split; [assumption |].
  exact (proj2 (grow_mask_zero_ants shelf_zero_ants 2 2 1 H1)).
Defined.

(** [grow_mask_radius_0] on [shelf]. *)
Lemma grow_mask_radius_0_witness :
  shape (anat shelf) = shape (aseg shelf)
  ∧ ∃ mask inp',
      grow_mask shelf 7 2 0 = Some (mask, inp')
      ∧ bool_astype_uint8 mask = refine_aseg (aseg shelf) 4.
Proof.
  split; [reflexivity |].
  exact (proj2 (proj2 (proj2 (proj2 (grow_mask_radius_0 shelf 7 2 eq_refl))))).
Defined.

(** [loop_order_independent] for the two candidates of [shelf], swapped. *)
Lemma loop_order_independent_witness :
  [(0, 0, 5); (0, 0, 9)] ≡ₚ [(0, 0, 9); (0, 0, 5)]
  ∧ for_pixels (pixel_step (anat shelf) shelf_gm (zeros_like (aseg shelf)) 2 2)
      [(0, 0, 5); (0, 0, 9)] (refine_aseg (aseg shelf) 4)
    = for_pixels (pixel_step (anat shelf) shelf_gm (zeros_like (aseg shelf)) 2 2)
        [(0, 0, 9); (0, 0, 5)] (refine_aseg (aseg shelf) 4).
Proof.
  assert (H1 : [(0, 0, 5); (0, 0, 9)] ≡ₚ [(0, 0, 9); (0, 0, 5)]) by apply perm_swap.
  split; [assumption |].
  exact (proj2 (loop_order_independent (anat shelf) shelf_gm
                  (zeros_like (aseg shelf)) 2 2 _ _ (refine_aseg (aseg shelf) 4) H1)).
Defined.

(** [candidate_shell_no_underflow] on [shelf], at the voxel 5. *)
Lemma candidate_shell_no_underflow_witness :
  in_bounds (shape (aseg shelf)) (0, 0, 5) = true
  ∧ ((0, 0, 5) ∈ candidates (aseg shelf) 1 →
     getitem (refine_aseg (collapse_hemispheres (aseg shelf)) 4) (0, 0, 5)
     = Some 0%Z).
Proof.
  split; [reflexivity |].
  exact (proj2 (proj2 (candidate_shell_no_underflow (aseg shelf) 1 (0, 0, 5)
                         eq_refl))).
Defined.

(** ** The model on small volumes *)

(** Closing bridges a gap of one voxel. *)
Example refine_aseg_bridges_gap :
  refine_aseg (row [0; 0; 0; 7; 0; 7; 0; 0; 0]%Z) 1
  = row [0; 0; 0; 1; 1; 1; 0; 0; 0]%Z.
Proof. reflexivity. Qed.

(** The flood fills the voxel enclosed by the box and nothing outside it. *)
Example fill_holes_fills_box :
  cell hollow_box (2, 2, 2) = false
  ∧ cell (binary_fill_holes hollow_box (ball 1)) (2, 2, 2) = true
  ∧ cell (binary_fill_holes hollow_box (ball 1)) (0, 2, 2) = false
  ∧ ¬ hole_free hollow_box (ball 1).
Proof.
  assert (Hin : cell hollow_box (2, 2, 2) = false) by reflexivity.
  assert (Hfill : cell (binary_fill_holes hollow_box (ball 1)) (2, 2, 2) = true)
    by (vm_compute; reflexivity).
  split; [exact Hin |]. split; [exact Hfill |].
  split; [vm_compute; reflexivity |].
  intros Hfree.
  rewrite (fill_holes_hole_free hollow_box (ball 1)) in Hfill.
  - unfold cell in Hin, Hfill. rewrite getitem_amap in Hfill.
    destruct (getitem hollow_box (2, 2, 2)); simpl in *;
      cbv [truthy truthy_bool] in *; congruence.
  - apply wf_tabulate.
  - exact Hfree.
Qed.

(** [grow_mask] on [shelf] with [zval = 10000000]: for [ww = 2] both
    candidates pass the test and survive the opening; for the default
    [ww = 7] the window of voxel 5 starts at a negative position, is empty
    after Python's normalisation of the slice, and the voxel is left out. *)
Example grow_mask_shelf :
  (fst <$> grow_mask shelf 2 10000000 1)
  = Some (row [false; false; false; false; false; true; true; true; true; true;
               false; false; false; false; false; false])
  ∧ (fst <$> grow_mask shelf 7 10000000 1)
    = Some (row [false; false; false; false; false; false; true; true; true; true;
                 false; false; false; false; false; false]).
Proof. split; vm_compute; reflexivity. Qed.


(** ** The mask of [refine_aseg] and the result of [grow_mask] *)

(** [refine_aseg] returns a volume of the shape of its input that holds
    zeros and ones only, whatever the labels. *)
Theorem refine_aseg_is_mask (aseg : ndarray Z) (ball_size : nat) :
  shape (refine_aseg aseg ball_size) = shape aseg
  ∧ wf (refine_aseg aseg ball_size)
  ∧ Forall (λ x, x = 0%Z ∨ x = 1%Z) (data (refine_aseg aseg ball_size)).
Proof.
  split; [apply shape_refine_aseg |]. split; [apply wf_refine_aseg |].
  rewrite refine_aseg_bool. unfold bool_astype_uint8, amap. simpl.
  apply Forall_fmap, Forall_true. intros []; simpl; auto.
Qed.

Lemma grow_refined_is_Some (inp : Inputs) (ww : Z) (zval : Q) (bw : nat) :
  wf (anat inp) → ants_on_grid inp → shape (anat inp) = shape (aseg inp) →
  is_Some (grow_refined inp ww zval bw).
Proof.
  intros Hwf Hants Hsh.
  destruct (gm_template_is_Some (anat inp) (collapse_hemispheres (aseg inp)))
    as [gm Hgm]; [by rewrite shape_collapse |].
  set (verdict_at := pixel_verdict (anat inp) gm (effective_ants inp) ww zval).
  set (refined0 := refine_aseg (collapse_hemispheres (aseg inp)) 4).
  assert (Hloop : for_pixels (pixel_step (anat inp) gm (effective_ants inp) ww zval)
                    (candidates (aseg inp) bw) refined0
                  = for_pixels (λ r q, v ← verdict_at q; apply_verdict r q v)
                      (candidates (aseg inp) bw) refined0).
  { apply for_pixels_ext. intros q r _. apply pixel_step_verdict. }
  destruct (for_pixels_is_Some verdict_at (candidates (aseg inp) bw) refined0)
    as [refined Hrun].
  { intros q Hq. pose proof (candidates_in_bounds _ _ _ Hq) as Hqb. split.
    - unfold refined0. rewrite shape_refine_aseg, shape_collapse. assumption.
    - apply pixel_verdict_is_Some; assumption. }
  unfold grow_refined. rewrite Hgm. simpl.
  fold (effective_ants inp). fold (candidates (aseg inp) bw). fold refined0.
  rewrite Hloop, Hrun. simpl. eauto.
Qed.

(** For a well-formed [anat] and an [ants_segs] that is omitted or on the
    grid of [aseg], [grow_mask] returns exactly when [anat] has the shape
    of [aseg]; otherwise the assignment through the mask of [aseg] raises. *)
Theorem grow_mask_returns_iff (inp : Inputs) (ww : Z) (zval : Q) (bw : nat) :
  wf (anat inp) → ants_on_grid inp →
  is_Some (grow_mask inp ww zval bw) ↔ shape (anat inp) = shape (aseg inp).
Proof.
  intros Hwf Hants. split.
  - intros [[mask inp'] Hrun]. unfold grow_mask, grow_refined in Hrun.
    destruct (gm_template _ _) as [gm |] eqn:Hgm; simpl in Hrun; [| discriminate].
    apply gm_template_shape in Hgm as [Hsh _]. by rewrite shape_collapse in Hsh.
  - intros Hsh. unfold grow_mask.
    destruct (grow_refined_is_Some inp ww zval bw Hwf Hants Hsh) as [[r inp'] ->].
    simpl. eauto.
Qed.

(** When [grow_mask] returns, the mask has the shape of [aseg]; [anat] and
    [ants_segs] are as they were, and [aseg] holds what it held but for the
    label 42, which reads 3. *)
Theorem grow_mask_result (inp : Inputs) (ww : Z) (zval : Q) (bw : nat)
    (mask : ndarray bool) (inp' : Inputs) :
  grow_mask inp ww zval bw = Some (mask, inp') →
  shape mask = shape (aseg inp) ∧ wf mask
  ∧ anat inp' = anat inp ∧ ants_segs inp' = ants_segs inp
  ∧ shape (aseg inp') = shape (aseg inp)
  ∧ ∀ p x, getitem (aseg inp) p = Some x →
           getitem (aseg inp') p = Some (if (x =? 42)%Z then 3%Z else x).
Proof.
  unfold grow_mask, grow_refined.
  destruct (gm_template _ _) as [gm |]; simpl; [| discriminate].
  destruct (for_pixels _ _ _) as [refined |] eqn:Hloop; simpl; [| discriminate].
  intros [= <- <-]. simpl.
  assert (Hshape : shape refined = shape (aseg inp)).
  { erewrite for_pixels_ext in Hloop
      by (intros q r _; apply pixel_step_verdict).
    apply for_pixels_shape in Hloop. rewrite Hloop.
    rewrite shape_refine_aseg. apply shape_collapse. }
  split; [| split; [| repeat split]].
  - unfold binary_opening, binary_dilation, binary_erosion,
      ndi_binary_dilation, ndi_binary_erosion.
    simpl. exact Hshape.
  - apply wf_tabulate.
  - intros p x Hx. unfold collapse_hemispheres, where_set.
    rewrite getitem_amap, Hx. reflexivity.
Qed.

Lemma grow_mask_returns_iff_witness : is_Some (grow_mask shelf 7 2 4).
Proof.
  apply (grow_mask_returns_iff shelf 7 2 4); reflexivity.
Defined.

Lemma grow_mask_result_witness :
  ∃ mask inp', grow_mask shelf 7 2 4 = Some (mask, inp')
    ∧ shape mask = shape (aseg shelf)
    ∧ getitem (aseg inp') (0, 0, 8) = Some 3%Z.
Proof.
  destruct (grow_mask shelf 7 2 4) as [[mask inp'] |] eqn:E;
    [| vm_compute in E; discriminate E].
  exists mask, inp'. split; [reflexivity |].
  destruct (grow_mask_result shelf 7 2 4 mask inp' E)
    as (Hshape & _ & _ & _ & _ & Haseg).
  split; [exact Hshape |]. exact (Haseg (0, 0, 8) 42%Z eq_refl).
Defined.

(** * Properties of the other functions *)

(** ** [fix_lta_length] and [TruncateLTA] *)

Section LtaFacts.
Import Lta.

Lemma splitlines_from_body (body cur s : text) :
  no_break body → splitlines_from cur (body ++ s) = splitlines_from (cur ++ body) s.
Proof.
  intros Hb. revert cur. induction Hb as [| c body Hc _ IH]; intros cur; simpl.
  - rewrite app_nil_r. reflexivity.
  - rewrite Hc, IH, <- app_assoc. reflexivity.
Qed.

Lemma splitlines_from_terminated (line cur s : text) :
  terminated line →
  splitlines_from cur (line ++ s) = (cur ++ line) :: splitlines_from [] s.
Proof.
  intros (body & t & -> & Hb & Ht & Hcr).
  rewrite <- app_assoc, splitlines_from_body by assumption. simpl.
  rewrite Ht. case_decide; [contradiction |].
  rewrite <- app_assoc. reflexivity.
Qed.

Lemma splitlines_join (lines : list text) :
  lines_ok lines → splitlines (mjoin lines) = lines.
Proof.
  unfold splitlines. induction 1 as [| body Hne Hb | line lines Hl _ IH]; simpl.
  - reflexivity.
  - rewrite app_nil_r.
    rewrite <- (app_nil_r body) at 1. rewrite splitlines_from_body by assumption.
    simpl. destruct body; [contradiction | reflexivity].
  - rewrite splitlines_from_terminated, IH by assumption. reflexivity.
Qed.

Lemma lines_ok_splitlines_from (cur s : text) :
  no_break cur → CR ∉ s → lines_ok (splitlines_from cur s).
Proof.
  revert cur. induction s as [| c rest IH]; intros cur Hcur Hcr; simpl.
  - destruct cur; [constructor |]. apply lines_ok_last; [discriminate | assumption].
  - apply not_elem_of_cons in Hcr as [Hc Hrest].
    destruct (is_linebreak c) eqn:Hbr.
    + case_decide; [congruence |].
      apply lines_ok_cons; [| apply IH; [constructor | assumption]].
      exists cur, c. auto.
    + apply IH; [| assumption]. apply Forall_app. split; [assumption |].
      constructor; [assumption | constructor].
Qed.

Lemma lines_ok_splitlines (s : text) : CR ∉ s → lines_ok (splitlines s).
Proof. apply lines_ok_splitlines_from. constructor. Qed.

(** Joining the lines of a text gives the text back. *)
Lemma join_splitlines_from (s cur : text) :
  mjoin (splitlines_from cur s) = cur ++ s.
Proof.
  remember (length s) as n eqn:Hn. revert s cur Hn.
  induction n as [n IH] using lt_wf_ind. intros s cur ->.
  assert (Hrec : ∀ s' cur', length s' < length s →
                   mjoin (splitlines_from cur' s') = cur' ++ s').
  { intros s' cur' Hlt. exact (IH (length s') Hlt s' cur' eq_refl). }
  clear IH. destruct s as [| c rest]; simpl in *.
  - destruct cur; simpl; rewrite ?app_nil_r; reflexivity.
  - destruct (is_linebreak c).
    + case_decide.
      * destruct rest as [| c' rest']; lazy beta iota; cbn [length] in *.
        -- simpl. rewrite app_nil_r. reflexivity.
        -- case_decide; cbn [mjoin list_join]; rewrite Hrec by (cbn [length]; lia);
             rewrite <- app_assoc; reflexivity.
      * simpl. rewrite Hrec by lia. rewrite <- app_assoc. reflexivity.
    + rewrite Hrec by lia. rewrite <- app_assoc. reflexivity.
Qed.

Lemma join_splitlines (s : text) : mjoin (splitlines s) = s.
Proof. apply join_splitlines_from. Qed.

Lemma universal_newlines_no_CR (raw : text) : CR ∉ universal_newlines raw.
Proof.
  remember (length raw) as n eqn:Hn. revert raw Hn.
  induction n as [n IH] using lt_wf_ind. intros raw ->.
  assert (Hrec : ∀ s, length s < length raw → CR ∉ universal_newlines s).
  { intros s Hlt. exact (IH (length s) Hlt s eq_refl). }
  clear IH. destruct raw as [| c rest]; simpl in *; [apply not_elem_of_nil |].
  case_decide.
  - apply not_elem_of_cons. split; [discriminate |].
    destruct rest as [| c' rest']; [apply not_elem_of_nil |].
    case_decide; apply Hrec; simpl; lia.
  - apply not_elem_of_cons. split; [congruence |]. apply Hrec. lia.
Qed.

Lemma universal_newlines_id (s : text) : CR ∉ s → universal_newlines s = s.
Proof.
  induction s as [| c rest IH]; intros Hcr; simpl; [reflexivity |].
  apply not_elem_of_cons in Hcr as [Hc Hrest].
  case_decide; [congruence |]. rewrite IH by assumption. reflexivity.
Qed.

(** *** The loop *)

Lemma foldl_fix_step (lines : list text) (fixed : bool) (newfile : list text) :
  foldl fix_step (fixed, newfile) lines
  = (fixed || existsb too_long lines, newfile ++ (fix_line <$> lines)).
Proof.
  revert fixed newfile. induction lines as [| line lines IH]; intros fixed newfile.
  - simpl. rewrite orb_false_r, app_nil_r. reflexivity.
  - simpl. unfold fix_line at 1. destruct (too_long line); rewrite IH.
    + rewrite orb_true_r, <- app_assoc. reflexivity.
    + rewrite orb_false_l, <- app_assoc. reflexivity.
Qed.

Lemma fix_lta_length_unfold (fs : files) (lta_file : string) :
  fix_lta_length fs lta_file
  = contents ← read_text fs lta_file;
    let lines := splitlines contents in
    if existsb too_long lines
    then Some (true, write_text fs lta_file (mjoin (fix_line <$> lines)))
    else Some (false, fs).
Proof.
  unfold fix_lta_length. destruct (read_text fs lta_file) as [contents |]; simpl;
    [| reflexivity].
  rewrite foldl_fix_step. simpl. destruct (existsb _ _); reflexivity.
Qed.

Lemma short_line_terminated : terminated short_line.
Proof.
  exists (lit "filename = path_too_long"), LF. split; [reflexivity |].
  split; [| split; [reflexivity | discriminate]].
  unfold no_break. apply Forall_forall. intros c Hc.
  apply list_elem_of_In in Hc. vm_compute in Hc.
  repeat (destruct Hc as [<- | Hc]; [reflexivity |]). contradiction.
Qed.

Lemma short_line_not_too_long : too_long short_line = false.
Proof. reflexivity. Qed.

Lemma fix_line_not_too_long (line : text) : too_long (fix_line line) = false.
Proof.
  unfold fix_line. destruct (too_long line) eqn:E;
    [apply short_line_not_too_long | exact E].
Qed.

Lemma lines_ok_fix (lines : list text) :
  lines_ok lines → lines_ok (fix_line <$> lines).
Proof.
  induction 1 as [| body Hne Hb | line lines Hl _ IH]; simpl.
  - constructor.
  - unfold fix_line. destruct (too_long body).
    + apply lines_ok_cons; [apply short_line_terminated | constructor].
    + apply lines_ok_last; assumption.
  - apply lines_ok_cons; [| assumption].
    unfold fix_line. destruct (too_long line);
      [apply short_line_terminated | assumption].
Qed.

Lemma no_CR_fix (contents : text) :
  CR ∉ contents → CR ∉ mjoin (fix_line <$> splitlines contents).
Proof.
  intros Hcr Hin. apply list_elem_of_join in Hin as (l & Hc & Hl).
  apply list_elem_of_fmap in Hl as (line & -> & Hline).
  unfold fix_line in Hc. destruct (too_long line).
  - apply list_elem_of_In in Hc. vm_compute in Hc.
    repeat (destruct Hc as [Hc | Hc]; [discriminate Hc |]). contradiction.
  - apply Hcr. rewrite <- (join_splitlines contents).
    apply list_elem_of_join. eauto.
Qed.

(** What a call does, in one equation. *)
Lemma fix_lta_length_result (fs fs' : files) (lta_file : string) (fixed : bool) :
  fix_lta_length fs lta_file = Some (fixed, fs') →
  ∃ raw, fs !! lta_file = Some raw
    ∧ fixed = existsb too_long (splitlines (universal_newlines raw))
    ∧ fs' = if fixed
            then <[lta_file :=
                     mjoin (fix_line <$> splitlines (universal_newlines raw))]> fs
            else fs.
Proof.
  rewrite fix_lta_length_unfold. unfold read_text, write_text.
  destruct (fs !! lta_file) as [raw |]; simpl; [| discriminate].
  intros Hrun. exists raw. split; [reflexivity |].
  destruct (existsb _ _); injection Hrun as <- <-; auto.
Qed.

(** Reading a fixed file back gives the fixed lines. *)
Lemma reread_fixed (fs : files) (lta_file : string) (raw : text) :
  let lines := splitlines (universal_newlines raw) in
  let new := mjoin (fix_line <$> lines) in
  read_text (<[lta_file := new]> fs) lta_file = Some new
  ∧ splitlines new = fix_line <$> lines.
Proof.
  intros lines new. split.
  - unfold read_text. rewrite lookup_insert_eq. simpl. f_equal.
    apply universal_newlines_id, no_CR_fix, universal_newlines_no_CR.
  - apply splitlines_join, lines_ok_fix, lines_ok_splitlines,
      universal_newlines_no_CR.
Qed.

Lemma existsb_false_Forall {A} (f : A → bool) (l : list A) :
  existsb f l = false → Forall (λ x, f x = false) l.
Proof.
  induction l as [| x l IH]; simpl; [constructor |].
  intros H. apply orb_false_iff in H as [Hx Hl]. constructor; auto.
Qed.

Lemma fix_lta_length_leaves_clean (fs fs' : files) (lta_file : string) (fixed : bool) :
  fix_lta_length fs lta_file = Some (fixed, fs') → clean fs' lta_file.
Proof.
  intros Hrun.
  destruct (fix_lta_length_result _ _ _ _ Hrun) as (raw & Hraw & Hfixed & ->).
  destruct fixed.
  - destruct (reread_fixed fs lta_file raw) as [Hread Hsplit].
    eexists. split; [exact Hread |]. rewrite Hsplit.
    apply Forall_fmap, Forall_true. intros line. apply fix_line_not_too_long.
  - exists (universal_newlines raw). split.
    + unfold read_text. rewrite Hraw. reflexivity.
    + apply existsb_false_Forall. symmetry. exact Hfixed.
Qed.

(** After [fix_lta_length] has returned, no line of the file starts with
    [filename = ] and is 255 characters long or longer. *)
Theorem fix_lta_length_clean (fs fs' : files) (lta_file : string) (fixed : bool) :
  fix_lta_length fs lta_file = Some (fixed, fs') → clean fs' lta_file.
Proof. apply fix_lta_length_leaves_clean. Qed.

Lemma clean_not_fixed (fs : files) (p : string) :
  clean fs p → fix_lta_length fs p = Some (false, fs).
Proof.
  intros (contents & Hread & Hclean). rewrite fix_lta_length_unfold, Hread. simpl.
  replace (existsb too_long (splitlines contents)) with false; [reflexivity |].
  symmetry. apply not_true_iff_false. intros Hex.
  apply existsb_exists in Hex as (line & Hin & Hlong).
  rewrite Forall_forall in Hclean. apply list_elem_of_In in Hin.
  rewrite (Hclean line Hin) in Hlong. discriminate.
Qed.

(** [fix_lta_length] is idempotent: a second call on the same file returns
    False and writes nothing. *)
Theorem fix_lta_length_idempotent (fs fs' : files) (lta_file : string) (fixed : bool) :
  fix_lta_length fs lta_file = Some (fixed, fs') →
  fix_lta_length fs' lta_file = Some (false, fs').
Proof. intros Hrun. eapply clean_not_fixed, fix_lta_length_leaves_clean, Hrun. Qed.

(** [fix_lta_length] returns True exactly when a line of the file is a too
    long [filename] line; when it returns False it has written nothing, and
    it never touches another file. *)
Theorem fix_lta_length_fixed_iff (fs fs' : files) (lta_file : string)
    (fixed : bool) (contents : text) :
  fix_lta_length fs lta_file = Some (fixed, fs') →
  read_text fs lta_file = Some contents →
  (fixed = true ↔ ∃ line, line ∈ splitlines contents ∧ too_long line = true)
  ∧ (fixed = false → fs' = fs)
  ∧ ∀ other, other ≠ lta_file → fs' !! other = fs !! other.
Proof.
  intros Hrun Hread.
  destruct (fix_lta_length_result _ _ _ _ Hrun) as (raw & Hraw & Hfixed & ->).
  unfold read_text in Hread. rewrite Hraw in Hread. injection Hread as <-.
  split; [| split].
  - rewrite Hfixed. rewrite existsb_exists.
    split; intros (line & Hin & Hlong); exists line;
      (split; [apply list_elem_of_In; assumption | assumption]).
  - intros ->. reflexivity.
  - intros other Hne. destruct fixed; [| reflexivity].
    apply lookup_insert_ne. congruence.
Qed.

(** When [fix_lta_length] rewrites the file, the file keeps its number of
    lines, every line that is not too long stays where it was and as it
    was, every too long line becomes [filename = path_too_long], and the
    file written holds no carriage return. *)
Theorem fix_lta_length_rewrite (fs fs' : files) (lta_file : string)
    (contents : text) :
  fix_lta_length fs lta_file = Some (true, fs') →
  read_text fs lta_file = Some contents →
  ∃ new, fs' !! lta_file = Some new
    ∧ (CR ∉ new)
    ∧ length (splitlines new) = length (splitlines contents)
    ∧ ∀ i line, splitlines contents !! i = Some line →
        splitlines new !! i
        = Some (if too_long line
                then lit "filename = path_too_long" ++ [LF] else line).
Proof.
  intros Hrun Hread.
  destruct (fix_lta_length_result _ _ _ _ Hrun) as (raw & Hraw & Hfixed & ->).
  unfold read_text in Hread. rewrite Hraw in Hread. injection Hread as <-.
  destruct (reread_fixed fs lta_file raw) as [_ Hsplit].
  eexists. split; [apply lookup_insert_eq |]. split; [| split].
  - apply no_CR_fix, universal_newlines_no_CR.
  - rewrite Hsplit, length_fmap. reflexivity.
  - intros i line Hline. rewrite Hsplit, list_lookup_fmap, Hline. reflexivity.
Qed.

Lemma clean_preserved (fs fs' : files) (p q : string) (fixed : bool) :
  clean fs p → fix_lta_length fs q = Some (fixed, fs') → clean fs' p.
Proof.
  intros Hclean Hrun. destruct (decide (p = q)) as [-> | Hne].
  - eapply fix_lta_length_leaves_clean, Hrun.
  - destruct (fix_lta_length_result _ _ _ _ Hrun) as (raw & _ & _ & ->).
    destruct fixed; [| assumption].
    destruct Hclean as (contents & Hread & Hc). exists contents.
    split; [| assumption]. unfold read_text in *.
    rewrite lookup_insert_ne by congruence. assumption.
Qed.

Lemma post_run_hook_preserves (lta_outputs : list string)
    (outputs : gmap string (option string)) (fs fs' : files) (p : string) :
  clean fs p → post_run_hook lta_outputs outputs fs = Some fs' → clean fs' p.
Proof.
  revert fs. induction lta_outputs as [| name rest IH]; intros fs Hclean; simpl.
  - intros [= <-]. assumption.
  - destruct (outputs !! name) as [[q |] |]; simpl; [| apply IH; assumption | discriminate].
    destruct (fix_lta_length fs q) as [[fixed fs1] |] eqn:Hfix; simpl; [| discriminate].
    apply IH. eapply clean_preserved; eassumption.
Qed.

(** When the hook returns, every output named in [lta_outputs] that is
    defined is a file without a too long [filename] line. *)
Theorem post_run_hook_clean (lta_outputs : list string)
    (outputs : gmap string (option string)) (fs fs' : files)
    (lta_name p : string) :
  post_run_hook lta_outputs outputs fs = Some fs' →
  lta_name ∈ lta_outputs → outputs !! lta_name = Some (Some p) →
  clean fs' p.
Proof.
  intros Hrun Hin Hout. revert fs Hrun.
  induction lta_outputs as [| name rest IH]; intros fs; simpl.
  - inversion Hin.
  - destruct (decide (lta_name = name)) as [<- | Hne].
    + rewrite Hout. simpl.
      destruct (fix_lta_length fs p) as [[fixed fs1] |] eqn:Hfix; simpl;
        [| discriminate].
      apply post_run_hook_preserves. eapply fix_lta_length_leaves_clean, Hfix.
    + assert (Hrest : lta_name ∈ rest)
        by (inversion Hin; subst; [contradiction | assumption]).
      destruct (outputs !! name) as [[q |] |]; simpl;
        [| apply IH; assumption | discriminate].
      destruct (fix_lta_length fs q) as [[fixed fs1] |]; simpl; [| discriminate].
      apply IH. assumption.
Qed.

Lemma fix_lta_length_long : fix_lta_length long_fs "out.lta" = Some (true, fixed_fs).
Proof. vm_compute. reflexivity. Qed.

Lemma read_text_long : read_text long_fs "out.lta" = Some long_lta.
Proof. vm_compute. reflexivity. Qed.

Lemma fix_lta_length_clean_witness :
  fix_lta_length long_fs "out.lta" = Some (true, fixed_fs) ∧ clean fixed_fs "out.lta".
Proof.
  split; [exact fix_lta_length_long |].
  apply (fix_lta_length_clean long_fs fixed_fs "out.lta" true).
  exact fix_lta_length_long.
Defined.

Lemma fix_lta_length_idempotent_witness :
  fix_lta_length fixed_fs "out.lta" = Some (false, fixed_fs).
Proof.
  apply (fix_lta_length_idempotent long_fs fixed_fs "out.lta" true).
  exact fix_lta_length_long.
Defined.

Lemma fix_lta_length_fixed_iff_witness :
  (∃ line, line ∈ splitlines long_lta ∧ too_long line = true)
  ∧ ∀ other, other ≠ "out.lta" → fixed_fs !! other = long_fs !! other.
Proof.
  destruct (fix_lta_length_fixed_iff long_fs fixed_fs "out.lta" true long_lta
              fix_lta_length_long read_text_long) as (Hiff & _ & Hother).
  split; [apply Hiff; reflexivity | exact Hother].
Defined.

Lemma fix_lta_length_rewrite_witness :
  ∃ new, fixed_fs !! "out.lta" = Some new
    ∧ (CR ∉ new)
    ∧ length (splitlines new) = length (splitlines long_lta)
    ∧ ∀ i line, splitlines long_lta !! i = Some line →
        splitlines new !! i
        = Some (if too_long line
                then lit "filename = path_too_long" ++ [LF] else line).
Proof.
  apply (fix_lta_length_rewrite long_fs fixed_fs "out.lta" long_lta).
  - exact fix_lta_length_long.
  - exact read_text_long.
Defined.

Lemma post_run_hook_clean_witness :
  post_run_hook ["out_lta_file"] {["out_lta_file" := Some "out.lta"]} long_fs
  = Some fixed_fs
  ∧ clean fixed_fs "out.lta".
Proof.
  assert (Hrun : post_run_hook ["out_lta_file"] {["out_lta_file" := Some "out.lta"]}
                   long_fs = Some fixed_fs) by (vm_compute; reflexivity).
  split; [exact Hrun |].
  apply (post_run_hook_clean ["out_lta_file"] {["out_lta_file" := Some "out.lta"]}
           long_fs fixed_fs "out_lta_file" "out.lta").
  - exact Hrun.
  - left.
  - reflexivity.
Defined.

End LtaFacts.

(** ** [MakeMidthickness.cmdline] *)

Section MidthicknessFacts.
Import Midthickness.

Variable path_name : string → string.
Variable associated_file : string → string → string.

Lemma pick_source_midthickness (mt gm : string) (before after : list string)
    (surf : string) (source : option string) :
  path_name surf = mt → Forall (λ s, path_name s ≠ mt) before →
  pick_source path_name mt gm (before ++ surf :: after) source = Some surf.
Proof.
  intros Hsurf Hbefore. revert source.
  induction Hbefore as [| s before Hs _ IH]; intros source; simpl.
  - case_decide; [reflexivity | contradiction].
  - case_decide; [contradiction |]. case_decide; apply IH.
Qed.

Lemma pick_source_no_match (mt gm : string) (graymid : list string)
    (source : option string) :
  Forall (λ s, path_name s ≠ mt ∧ path_name s ≠ gm) graymid →
  pick_source path_name mt gm graymid source = source.
Proof.
  intros Hall. revert source.
  induction Hall as [| s rest [Hmt Hgm] _ IH]; intros source; simpl;
    [reflexivity |].
  repeat (case_decide; [contradiction |]). apply IH.
Qed.

Lemma pick_source_graymid (mt gm : string) (before after : list string)
    (surf : string) (source : option string) :
  path_name surf = gm →
  Forall (λ s, path_name s ≠ mt) (before ++ surf :: after) →
  Forall (λ s, path_name s ≠ gm) after →
  pick_source path_name mt gm (before ++ surf :: after) source = Some surf.
Proof.
  intros Hsurf Hmt Hafter. revert source.
  induction before as [| s before IH]; intros source; simpl in *.
  - apply Forall_cons in Hmt as [Hs Hmt].
    case_decide; [contradiction |]. case_decide; [| contradiction].
    apply pick_source_no_match. apply Forall_forall. intros x Hx.
    rewrite Forall_forall in Hmt, Hafter. auto.
  - apply Forall_cons in Hmt as [Hs Hmt].
    case_decide; [contradiction |]. case_decide; apply IH; assumption.
Qed.

(** A surface named as the midthickness of the input is preferred: the
    command copies the first such surface of [graymid], whatever graymid
    surfaces stand before or after it. *)
Theorem cmdline_prefers_midthickness (cmd in_file out_file surf : string)
    (before after : list string) :
  path_name surf = associated_file (path_name in_file) "midthickness" →
  Forall (λ s, path_name s
               ≠ associated_file (path_name in_file) "midthickness") before →
  cmdline path_name associated_file cmd (Some (before ++ surf :: after)) in_file out_file
  = "cp " +:+ surf +:+ " " +:+ out_file.
Proof.
  intros Hsurf Hbefore. unfold Midthickness.cmdline.
  replace (length (before ++ surf :: after) <? 1) with false.
  - rewrite pick_source_midthickness by assumption. reflexivity.
  - symmetry. apply Nat.ltb_ge. rewrite length_app. simpl. lia.
Qed.

(** Without a surface named as the midthickness, the command copies the
    last surface of [graymid] named as the graymid of the input; without
    that either, and for an empty or undefined [graymid], it is the command
    of [MRIsExpand]. *)
Theorem cmdline_graymid_fallback (cmd in_file out_file : string)
    (graymid : list string) :
  Forall (λ s, path_name s
               ≠ associated_file (path_name in_file) "midthickness") graymid →
  (∀ before surf after,
     graymid = before ++ surf :: after →
     path_name surf = associated_file (path_name in_file) "graymid" →
     Forall (λ s, path_name s
                  ≠ associated_file (path_name in_file) "graymid") after →
     cmdline path_name associated_file cmd (Some graymid) in_file out_file
     = "cp " +:+ surf +:+ " " +:+ out_file)
  ∧ (Forall (λ s, path_name s
                  ≠ associated_file (path_name in_file) "graymid") graymid →
     cmdline path_name associated_file cmd (Some graymid) in_file out_file = cmd)
  ∧ cmdline path_name associated_file cmd None in_file out_file = cmd.
Proof.
  intros Hmt. split; [| split; [| reflexivity]].
  - intros before surf after -> Hsurf Hafter. unfold Midthickness.cmdline.
    replace (length (before ++ surf :: after) <? 1) with false.
    + rewrite pick_source_graymid by assumption. reflexivity.
    + symmetry. apply Nat.ltb_ge. rewrite length_app. simpl. lia.
  - intros Hgm. unfold Midthickness.cmdline. destruct (_ <? _); [reflexivity |].
    rewrite pick_source_no_match; [reflexivity |].
    apply Forall_forall. intros x Hx. rewrite Forall_forall in Hmt, Hgm. auto.
Qed.

End MidthicknessFacts.

Lemma cmdline_prefers_midthickness_witness :
  Midthickness.cmdline id Midthickness.hemi_file
    "mris_expand -thickness lh.white 0.5 graymid"
    (Some ["lh.graymid"; "lh.midthickness"; "rh.midthickness"]) "lh.white" "lh.out"
  = "cp lh.midthickness lh.out".
Proof.
  apply (cmdline_prefers_midthickness id Midthickness.hemi_file
           "mris_expand -thickness lh.white 0.5 graymid" "lh.white" "lh.out"
           "lh.midthickness" ["lh.graymid"] ["rh.midthickness"]).
  - reflexivity.
  - repeat constructor. vm_compute. discriminate.
Defined.

Lemma cmdline_graymid_fallback_witness :
  Midthickness.cmdline id Midthickness.hemi_file
    "mris_expand -thickness lh.white 0.5 graymid"
    (Some ["lh.pial"; "lh.graymid"; "rh.graymid"]) "lh.white" "lh.out"
  = "cp lh.graymid lh.out".
Proof.
  refine (proj1 (cmdline_graymid_fallback id Midthickness.hemi_file
                   "mris_expand -thickness lh.white 0.5 graymid" "lh.white" "lh.out"
                   ["lh.pial"; "lh.graymid"; "rh.graymid"] _)
            ["lh.pial"] "lh.graymid" ["rh.graymid"] eq_refl eq_refl _).
  - repeat constructor; vm_compute; discriminate.
  - repeat constructor. vm_compute. discriminate.
Defined.

(** ** [detect_inputs] and [FSDetectInputs] *)

Section DetectInputsFacts.
Import DetectInputs.

Variable image : Type.
Variable load : string → option image.
Variable get_zooms : image → list Q.

Lemma max_zoom_upper (zooms : list Q) (m : Q) :
  max_zoom zooms = Some m → Forall (λ z, (z <= m)%Q) zooms.
Proof.
  destruct zooms as [| z rest]; simpl; [discriminate |]. intros [= <-].
  assert (Hfold : ∀ l a,
            (a <= foldl (λ m x, if Qltb m x then x else m) a l)%Q
            ∧ Forall (λ x, (x <= foldl (λ m x, if Qltb m x then x else m) a l)%Q) l).
  { induction l as [| x l IH]; intros a; simpl.
    - split; [apply Qle_refl | constructor].
    - destruct (Qltb a x) eqn:E.
      + apply Qltb_lt in E. destruct (IH x) as [Hx Hl].
        split; [| constructor; assumption].
        eapply Qle_trans; [apply Qlt_le_weak; eassumption | assumption].
      + destruct (IH a) as [Ha Hl]. split; [assumption |].
        constructor; [| assumption].
        eapply Qle_trans; [| exact Ha].
        apply Qnot_lt_le. intros Hlt. apply Qltb_lt in Hlt. congruence. }
  destruct (Hfold rest z) as [Hz Hrest]. constructor; assumption.
Qed.

Lemma first_is_fine_true (files : list string) :
  first_is_fine load get_zooms files = Some true →
  ∃ f img, head files = Some f ∧ load f = Some img
           ∧ get_zooms img ≠ []
           ∧ Forall (λ z, (z < 6 # 5)%Q) (get_zooms img).
Proof.
  destruct files as [| f rest]; simpl; [discriminate |].
  destruct (load f) as [img |] eqn:Hload; simpl; [| discriminate].
  destruct (max_zoom (get_zooms img)) as [m |] eqn:Hmax; simpl; [| discriminate].
  intros [= Hlt]. apply Qltb_lt in Hlt. exists f, img.
  split; [reflexivity |]. split; [assumption |]. split.
  - intros E. rewrite E in Hmax. discriminate Hmax.
  - eapply Forall_impl; [apply max_zoom_upper; exact Hmax |].
    intros z Hz. simpl in Hz. eapply Qle_lt_trans; [exact Hz | exact Hlt].
Qed.

Lemma detect_inputs_not_both (t1w_list : filenames)
    (t2w_list flair_list : option filenames) (hires_enabled hires : bool)
    (t2w flair : string) (mris_inflate : option string) :
  detect_inputs load get_zooms t1w_list t2w_list flair_list hires_enabled
  = Some (Some t2w, Some flair, hires, mris_inflate) →
  t2w = "".
Proof.
  unfold detect_inputs.
  set (t2l := from_option filename_to_list [] t2w_list).
  set (fl := from_option filename_to_list [] flair_list).
  destruct (head (filename_to_list t1w_list)) as [t1w_0 |]; simpl; [| discriminate].
  destruct (load t1w_0) as [t1w_ref |]; simpl; [| discriminate].
  destruct (if hires_enabled then _ else _) as [h |]; simpl; [| discriminate].
  destruct (first_is_fine load get_zooms t2l) as [t2w_fine |]; simpl; [| discriminate].
  destruct (match fl with [] => _ | _ => _ end) as [flair_fine |] eqn:Hfl; simpl;
    [| discriminate].
  intros [= Ht2w Hflair _ _].
  destruct t2w_fine; [| discriminate]. destruct flair_fine; [| discriminate].
  rewrite Ht2w in Hfl. destruct fl as [| g rest]; [discriminate |].
  simpl in Hfl. destruct (decide (t2w = "")) as [-> | Hne]; [reflexivity |].
  rewrite bool_decide_eq_false_2 in Hfl by assumption. discriminate Hfl.
Qed.

(** [detect_inputs] never returns both a T2w and a FLAIR reference, but
    for a T2w file whose name is the empty string, which [not t2w] takes
    for no file. *)
Theorem detect_inputs_exclusive (t1w_list : filenames)
    (t2w_list flair_list : option filenames) (hires_enabled hires : bool)
    (t2w flair : string) (mris_inflate : option string) :
  detect_inputs load get_zooms t1w_list t2w_list flair_list hires_enabled
  = Some (Some t2w, Some flair, hires, mris_inflate) →
  t2w = "".
Proof. apply detect_inputs_not_both. Qed.

(** What [detect_inputs] returns is backed by the headers: hi-res, with its
    [mris_inflate] argument, only when it is enabled and every voxel size of
    the first T1w is below 0.95; a T2w or FLAIR reference only when it is
    the first file of its list and every voxel size of it is below 1.2. *)
Theorem detect_inputs_thresholds (t1w_list : filenames)
    (t2w_list flair_list : option filenames) (hires_enabled hires : bool)
    (t2w flair mris_inflate : option string) :
  detect_inputs load get_zooms t1w_list t2w_list flair_list hires_enabled
  = Some (t2w, flair, hires, mris_inflate) →
  mris_inflate = (if hires then Some "-n 50" else None)
  ∧ (hires = true →
     hires_enabled = true
     ∧ ∃ f img, head (filename_to_list t1w_list) = Some f ∧ load f = Some img
                ∧ Forall (λ z, (z < 1 - (5 # 100))%Q) (get_zooms img))
  ∧ (∀ f, t2w = Some f →
     ∃ img, head (from_option filename_to_list [] t2w_list) = Some f
            ∧ load f = Some img ∧ Forall (λ z, (z < 6 # 5)%Q) (get_zooms img))
  ∧ (∀ f, flair = Some f →
     ∃ img, head (from_option filename_to_list [] flair_list) = Some f
            ∧ load f = Some img ∧ Forall (λ z, (z < 6 # 5)%Q) (get_zooms img)).
Proof.
  unfold detect_inputs.
  destruct (head (filename_to_list t1w_list)) as [t1w_0 |]; simpl; [| discriminate].
  destruct (load t1w_0) as [t1w_ref |] eqn:Hload; simpl; [| discriminate].
  destruct (if hires_enabled then _ else _) as [h |] eqn:Hh; simpl; [| discriminate].
  destruct (first_is_fine load get_zooms (from_option filename_to_list [] t2w_list))
    as [t2w_fine |] eqn:Ht2w; simpl; [| discriminate].
  destruct (match from_option filename_to_list [] flair_list with
            | [] => _ | _ => _ end) as [flair_fine |] eqn:Hflair; simpl;
    [| discriminate].
  intros [= <- <- <- <-]. split; [reflexivity |]. split; [| split].
  - intros ->. destruct hires_enabled; [| discriminate]. split; [reflexivity |].
    destruct (max_zoom (get_zooms t1w_ref)) as [m |] eqn:Hmax; simpl in Hh;
      [| discriminate].
    injection Hh as Hlt. apply Qltb_lt in Hlt. exists t1w_0, t1w_ref.
    repeat split; try assumption.
    eapply Forall_impl; [apply max_zoom_upper; exact Hmax |].
    intros z Hz. simpl in Hz. eapply Qle_lt_trans; [exact Hz | exact Hlt].
  - intros f Hf. destruct t2w_fine; [| discriminate].
    destruct (first_is_fine_true _ Ht2w) as (f' & img & Hhead & Hl & _ & Hz).
    rewrite Hhead in Hf. injection Hf as <-. eauto.
  - intros f Hf. destruct flair_fine; [| discriminate].
    assert (Hfine : first_is_fine load get_zooms (from_option filename_to_list [] flair_list)
                    = Some true).
    { destruct (from_option filename_to_list [] flair_list) as [| g rest];
        [discriminate |].
      destruct (negb _); [assumption | discriminate]. }
    destruct (first_is_fine_true _ Hfine) as (f' & img & Hhead & Hl & _ & Hz).
    rewrite Hhead in Hf. injection Hf as <-. eauto.
Qed.

(** The results of [FSDetectInputs] never enable both the T2w and the
    FLAIR image, but for a T2w file whose name is the empty string; and
    they hold a [t2w] entry exactly when [use_t2w] is true. *)
Theorem run_interface_exclusive (t1w_list : filenames)
    (t2w_list flair_list : option filenames) (hires_enabled : bool)
    (results : gmap string value) :
  run_interface load get_zooms t1w_list t2w_list flair_list hires_enabled = Some results →
  (results !! "use_t2w" = Some (VBool true) →
   results !! "use_flair" = Some (VBool true) →
   results !! "t2w" = Some (VStr ""))
  ∧ (results !! "use_t2w" = Some (VBool true) ↔ is_Some (results !! "t2w")).
Proof.
  unfold run_interface.
  destruct (detect_inputs load get_zooms _ _ _ _) as [[[[t2w flair] hires] mris_inflate] |] eqn:Hd;
    simpl; [| discriminate].
  intros [= <-].
  assert (Hex : ∀ a b, t2w = Some a → flair = Some b → a = "").
  { intros a b -> ->. eapply detect_inputs_not_both, Hd. }
  destruct t2w as [a |], flair as [b |], hires; simpl;
    (split; [intros H1 H2 | split; [intros H | intros [x H]]]);
    simplify_map_eq; eauto;
    try (rewrite (Hex _ _ eq_refl eq_refl); reflexivity).
Qed.

End DetectInputsFacts.

Lemma detect_inputs_exclusive_witness :
  DetectInputs.detect_inputs DetectInputs.load_zooms id
    (DetectInputs.OneFile "T1w.nii") (Some (DetectInputs.OneFile ""))
    (Some (DetectInputs.OneFile "FLAIR.nii")) true
  = Some (Some "", Some "FLAIR.nii", true, Some "-n 50")
  ∧ "" = "".
Proof.
  assert (Hrun : DetectInputs.detect_inputs DetectInputs.load_zooms id
            (DetectInputs.OneFile "T1w.nii") (Some (DetectInputs.OneFile ""))
            (Some (DetectInputs.OneFile "FLAIR.nii")) true
          = Some (Some "", Some "FLAIR.nii", true, Some "-n 50"))
    by (vm_compute; reflexivity).
  split; [exact Hrun |].
  exact (detect_inputs_exclusive _ DetectInputs.load_zooms id _ _ _ _ _ _ _ _ Hrun).
Defined.

Lemma detect_inputs_thresholds_witness :
  ∃ f img, head [ "T1w.nii" ] = Some f ∧ DetectInputs.load_zooms f = Some img
           ∧ Forall (λ z, (z < 1 - (5 # 100))%Q) (id img).
Proof.
  assert (Hrun : DetectInputs.detect_inputs DetectInputs.load_zooms id
            (DetectInputs.OneFile "T1w.nii") (Some (DetectInputs.OneFile "T2w.nii"))
            None true
          = Some (Some "T2w.nii", None, true, Some "-n 50"))
    by (vm_compute; reflexivity).
  exact (proj2 (proj1 (proj2
           (detect_inputs_thresholds _ DetectInputs.load_zooms id _ _ _ _ _ _ _ _ Hrun))
           eq_refl)).
Defined.

Lemma run_interface_exclusive_witness :
  DetectInputs.t2w_results !! "use_t2w" = Some (DetectInputs.VBool true)
  ↔ is_Some (DetectInputs.t2w_results !! "t2w").
Proof.
  assert (Hrun : DetectInputs.run_interface DetectInputs.load_zooms id
            (DetectInputs.FileList ["T1w.nii"])
            (Some (DetectInputs.FileList ["T2w.nii"])) None true
          = Some DetectInputs.t2w_results)
    by (vm_compute; reflexivity).
  exact (proj2 (run_interface_exclusive _ DetectInputs.load_zooms id _ _ _ _ _ Hrun)).
Defined.

(** ** [inject_skullstripped] *)

Section InjectFacts.
Import Inject.

Variable image : Type.
Variable mask_image : image → image → option image.

Lemma inject_skullstripped_result (fs fs' : gmap string image)
    (subjects_dir subject_id skullstripped : string) (ret : string * string) :
  inject_skullstripped mask_image fs subjects_dir subject_id skullstripped = Some (fs', ret) →
  let mridir := op_join subjects_dir [subject_id; "mri"] in
  ret = (subjects_dir, subject_id)
  ∧ is_Some (fs' !! op_join mridir ["brainmask.auto.mgz"])
  ∧ is_Some (fs' !! op_join mridir ["brainmask.mgz"])
  ∧ fs ⊆ fs'.
Proof.
  intros Hrun mridir. unfold inject_skullstripped in Hrun. fold mridir in Hrun.
  set (bm_auto := op_join mridir ["brainmask.auto.mgz"]) in *.
  set (bm := op_join mridir ["brainmask.mgz"]) in *.
  destruct (if bool_decide (is_Some (fs !! bm_auto)) then _ else _)
    as [fs1 |] eqn:H1; simpl in Hrun; [| discriminate].
  assert (Hfs1 : is_Some (fs1 !! bm_auto) ∧ fs ⊆ fs1).
  { destruct (decide (is_Some (fs !! bm_auto))) as [Hex | Hex].
    - rewrite bool_decide_eq_true_2 in H1 by assumption. injection H1 as <-. auto.
    - rewrite bool_decide_eq_false_2 in H1 by assumption.
      destruct (fs !! op_join mridir ["T1.mgz"]) as [img |]; simpl in H1;
        [| discriminate].
      destruct (fs !! skullstripped) as [mask |]; simpl in H1; [| discriminate].
      destruct (mask_image img mask) as [masked |]; simpl in H1; [| discriminate].
      injection H1 as <-. split.
      + rewrite lookup_insert_eq. eauto.
      + apply insert_subseteq. apply eq_None_not_Some. assumption. }
  destruct Hfs1 as [Hauto Hsub1].
  destruct (if bool_decide (is_Some (fs1 !! bm)) then _ else _)
    as [fs2 |] eqn:H2; simpl in Hrun; [| discriminate].
  injection Hrun as <- <-. split; [reflexivity |].
  destruct (decide (is_Some (fs1 !! bm))) as [Hex | Hex].
  - rewrite bool_decide_eq_true_2 in H2 by assumption. injection H2 as <-. auto.
  - rewrite bool_decide_eq_false_2 in H2 by assumption.
    destruct Hauto as [source Hsource]. rewrite Hsource in H2. simpl in H2.
    injection H2 as <-.
    assert (Hsub2 : fs1 ⊆ <[bm := source]> fs1)
      by (apply insert_subseteq, eq_None_not_Some; assumption).
    split; [| split].
    + exists source. eapply lookup_weaken; eassumption.
    + rewrite lookup_insert_eq. eauto.
    + etransitivity; eassumption.
Qed.

(** After [inject_skullstripped] has returned, both brain masks exist, and
    every file that existed before the call is still there with the image
    it held: the function creates what is missing and overwrites nothing. *)
Theorem inject_skullstripped_keeps (fs fs' : gmap string image)
    (subjects_dir subject_id skullstripped : string) (ret : string * string) :
  inject_skullstripped mask_image fs subjects_dir subject_id skullstripped = Some (fs', ret) →
  let mridir := op_join subjects_dir [subject_id; "mri"] in
  ret = (subjects_dir, subject_id)
  ∧ is_Some (fs' !! op_join mridir ["brainmask.auto.mgz"])
  ∧ is_Some (fs' !! op_join mridir ["brainmask.mgz"])
  ∧ fs ⊆ fs'.
Proof. apply inject_skullstripped_result. Qed.

(** [inject_skullstripped] is idempotent: on the file system it leaves, a
    second call with the same arguments succeeds and changes nothing. *)
Theorem inject_skullstripped_idempotent (fs fs' : gmap string image)
    (subjects_dir subject_id skullstripped : string) (ret : string * string) :
  inject_skullstripped mask_image fs subjects_dir subject_id skullstripped = Some (fs', ret) →
  inject_skullstripped mask_image fs' subjects_dir subject_id skullstripped = Some (fs', ret).
Proof.
  intros Hrun.
  destruct (inject_skullstripped_result _ _ _ _ _ _ Hrun) as (-> & Hauto & Hbm & _).
  unfold inject_skullstripped.
  rewrite bool_decide_eq_true_2 by assumption. simpl.
  rewrite bool_decide_eq_true_2 by assumption. reflexivity.
Qed.

End InjectFacts.

Lemma inject_skullstripped_subject :
  Inject.inject_skullstripped Inject.product Inject.subject_fs
    "/subjects" "sub-01" "/data/brain.nii.gz"
  = Some (Inject.injected_fs, ("/subjects", "sub-01")).
Proof. vm_compute. reflexivity. Qed.

Lemma inject_skullstripped_keeps_witness :
  is_Some (Inject.injected_fs !! "/subjects/sub-01/mri/brainmask.auto.mgz")
  ∧ is_Some (Inject.injected_fs !! "/subjects/sub-01/mri/brainmask.mgz")
  ∧ Inject.subject_fs ⊆ Inject.injected_fs.
Proof.
  exact (proj2 (inject_skullstripped_keeps _ Inject.product _ _ _ _ _ _
                  inject_skullstripped_subject)).
Defined.

Lemma inject_skullstripped_idempotent_witness :
  Inject.inject_skullstripped Inject.product Inject.injected_fs
    "/subjects" "sub-01" "/data/brain.nii.gz"
  = Some (Inject.injected_fs, ("/subjects", "sub-01")).
Proof.
  exact (inject_skullstripped_idempotent _ Inject.product _ _ _ _ _ _
           inject_skullstripped_subject).
Defined.

(** ** The rows, columns and ticks of the carpet *)

Section CarpetFacts.
Import Carpet.

Lemma omap_total {A B} (f : A → option B) (l : list A) :
  Forall (λ x, is_Some (f x)) l → length (omap f l) = length l.
Proof.
  induction 1 as [| x l [y Hy] _ IH]; [done |].
  cbn. rewrite Hy. cbn. f_equal. exact IH.
Qed.

Lemma ceil_div_lookup (n k j : nat) : 0 < k → j < ceil_div n k → j * k < n.
Proof.
  unfold ceil_div. intros Hk Hj.
  assert (H1 : (j + 1) * k ≤ n + k - 1).
  { transitivity (k * ((n + k - 1) / k)); [| apply Nat.Div0.mul_div_le].
    nia. }
  nia.
Qed.

Lemma ceil_div_decimation (n s : nat) : 0 < s → ceil_div n (1 + n / s) ≤ s.
Proof.
  intros Hs. unfold ceil_div.
  pose proof (Nat.div_mod_eq n s) as Hdm.
  pose proof (Nat.mod_upper_bound n s ltac:(lia)) as Hm.
  apply Nat.lt_succ_r. apply Nat.Div0.div_lt_upper_bound. nia.
Qed.

Lemma ceil_div_1 (n : nat) : ceil_div n 1 = n.
Proof. unfold ceil_div. rewrite Nat.div_1_r. lia. Qed.

Lemma every_length {A} (step : Z) (l l' : list A) :
  every step l = Some l' → length l' = ceil_div (length l) (Z.to_nat (Z.abs step)).
Proof.
  unfold every. intros H.
  destruct (Z.ltb_spec 0 step) as [Hpos | Hnpos].
  - injection H as <-. rewrite Z.abs_eq by lia.
    rewrite omap_total, length_seq; [done |].
    apply Forall_forall. intros j [_ Hj]%elem_of_seq.
    apply lookup_lt_is_Some. apply ceil_div_lookup; lia.
  - destruct (Z.ltb_spec step 0) as [Hneg | ?]; [| discriminate].
    injection H as <-. rewrite Z.abs_neq by lia.
    rewrite omap_total, length_seq; [done |].
    apply Forall_forall. intros j [_ Hj]%elem_of_seq.
    apply lookup_lt_is_Some.
    assert (j * Z.to_nat (- step) < length l) by (apply ceil_div_lookup; lia).
    lia.
Qed.

Lemma omap_lookup_seq {A} (pre l : list A) :
  omap (λ j, (pre ++ l) !! j) (seq (length pre) (length l)) = l.
Proof.
  revert pre. induction l as [| x l IH]; intros pre; [done |].
  cbn [length seq omap list_omap].
  rewrite list_lookup_middle by done.
  f_equal. specialize (IH (pre ++ [x])).
  rewrite length_app, Nat.add_1_r, <- app_assoc in IH. exact IH.
Qed.

Lemma every_1 {A} (l : list A) : every 1 l = Some l.
Proof.
  unfold every. cbn. rewrite ceil_div_1. f_equal.
  rewrite <- (omap_lookup_seq [] l) at 2. cbn [length app].
  generalize (seq 0 (length l)). intros js.
  induction js as [| j js IH]; [done |].
  cbn. rewrite Nat.mul_1_r, IH. done.
Qed.

Lemma mapM_every_1 {A} (l : list (list A)) : mapM (every 1) l = Some l.
Proof.
  induction l as [| r l IH]; [done |].
  cbn [mapM]. rewrite every_1, IH. done.
Qed.

Lemma every_elem_of {A} (step : Z) (l l' : list A) (x : A) :
  every step l = Some l' → x ∈ l' → x ∈ l.
Proof.
  unfold every. intros H Hx.
  repeat case_match; simplify_eq;
    apply list_elem_of_omap in Hx as (j & _ & Hj);
    eapply list_elem_of_lookup_2; exact Hj.
Qed.

Lemma every_is_Some {A} (step : Z) (l : list A) : step ≠ 0%Z → is_Some (every step l).
Proof.
  intros Hstep. unfold every.
  destruct (Z.ltb_spec 0 step); [eauto |].
  destruct (Z.ltb_spec step 0); [eauto | lia].
Qed.

Lemma getitem_elem_of {A} (v : ndarray A) (p : coord) (x : A) :
  getitem v p = Some x → x ∈ data v.
Proof.
  unfold getitem. case_match; [| discriminate].
  apply list_elem_of_lookup_2.
Qed.

Lemma elem_of_data {A} (v : ndarray A) (x : A) :
  wf v → x ∈ data v → ∃ p, getitem v p = Some x.
Proof.
  intros Hwf [n Hn]%list_elem_of_lookup_1.
  pose proof (lookup_lt_Some _ _ _ Hn) as Hlt. unfold wf in Hwf. rewrite Hwf in Hlt.
  exists (unravel (shape v) n). unfold getitem.
  rewrite in_bounds_unravel by done. by rewrite ravel_unravel.
Qed.

Lemma mapM_Forall {A B} (f : A → option B) (P : A → Prop) (Q : B → Prop)
    (l : list A) (k : list B) :
  (∀ x y, P x → f x = Some y → Q y) →
  mapM f l = Some k → Forall P l → Forall Q k.
Proof.
  intros HPQ Hm%mapM_Some_1. induction Hm as [| x y l k Hxy _ IH]; [done |].
  intros [Hx Hl]%Forall_cons. constructor; eauto.
Qed.

Section Decimation.
Variables (func_data : ndarray (list Q)) (ntsteps : nat) (atlaslabels : ndarray Z).
Variables (sz : Z * Z) (lut : option (list Z)).

Let inside := argwhere (λ x, 0 <? x)%Z atlaslabels.
Let all_rows := omap (getitem func_data) inside.
Let seg := omap (getitem atlaslabels) inside.

Lemma seg_length : length seg = length inside.
Proof.
  apply omap_total, Forall_forall. intros p Hp.
  apply elem_of_argwhere in Hp.
  destruct Hp as (x & Hx & _). eauto.
Qed.

Lemma all_rows_length :
  wf func_data → shape atlaslabels = shape func_data →
  length all_rows = length inside.
Proof.
  intros Hwf Hsh. apply omap_total, Forall_forall. intros p Hp.
  apply argwhere_in_bounds in Hp. rewrite Hsh in Hp.
  by apply getitem_is_Some.
Qed.

Lemma elem_of_seg (label : Z) :
  wf atlaslabels → label ∈ seg ↔ label ∈ data atlaslabels ∧ (0 < label)%Z.
Proof.
  intros Hwf. unfold seg. rewrite list_elem_of_omap. split.
  - intros (p & Hp & Hget). apply elem_of_argwhere in Hp as (x & Hx & Hc).
    rewrite Hget in Hx. injection Hx as <-.
    split; [by eapply getitem_elem_of | by apply Z.ltb_lt].
  - intros [Hin Hpos]. apply elem_of_data in Hin as [p Hp]; [| done].
    exists p. split; [| done]. apply elem_of_argwhere.
    exists label. split; [done | by apply Z.ltb_lt].
Qed.

Lemma plot_carpet_data_unfold rows newsegm p_dec t_dec :
  plot_carpet_data func_data ntsteps atlaslabels sz lut = Some (rows, newsegm, p_dec, t_dec) →
  shape atlaslabels = shape func_data ∧ ntsteps ≠ 0 ∧ sz.1 ≠ 0%Z ∧ sz.2 ≠ 0%Z ∧
  p_dec = (1 + Z.of_nat (length all_rows) / sz.1)%Z ∧
  t_dec = (1 + Z.of_nat ntsteps / sz.2)%Z ∧
  ∃ segm rows0,
    mapM (take_index (from_option id default_lut lut)) seg = Some segm ∧
    (if (p_dec =? 0)%Z then rows0 = all_rows ∧ newsegm = segm
     else every p_dec all_rows = Some rows0 ∧ every p_dec segm = Some newsegm) ∧
    (if (t_dec =? 0)%Z then rows = rows0 else mapM (every t_dec) rows0 = Some rows).
Proof.
  unfold plot_carpet_data, floordiv. fold inside. fold all_rows. fold seg.
  intros H.
  destruct (decide (shape atlaslabels = shape func_data)); [| discriminate].
  destruct (decide (ntsteps = 0)); [discriminate |].
  destruct (mapM _ seg) as [segm |]; [| discriminate]. cbn in H.
  destruct (Z.eqb_spec sz.1 0); [discriminate |]. cbn in H.
  destruct (1 + Z.of_nat (length all_rows) / sz.1 =? 0)%Z eqn:Hp.
  - cbn in H. destruct (Z.eqb_spec sz.2 0); [discriminate |]. cbn in H.
    destruct (1 + Z.of_nat ntsteps / sz.2 =? 0)%Z eqn:Ht.
    + cbn in H. simplify_eq. repeat split; try done.
      do 2 eexists. rewrite Hp, Ht. done.
    + destruct (mapM _ all_rows) as [rows' |] eqn:Hm; [| discriminate].
      cbn in H. simplify_eq. repeat split; try done.
      do 2 eexists. rewrite Hp, Ht. done.
  - destruct (every _ all_rows) as [rows0 |] eqn:He1; [| discriminate]. cbn in H.
    destruct (every _ segm) as [segm' |] eqn:He2; [| discriminate]. cbn in H.
    destruct (Z.eqb_spec sz.2 0); [discriminate |]. cbn in H.
    destruct (1 + Z.of_nat ntsteps / sz.2 =? 0)%Z eqn:Ht.
    + cbn in H. simplify_eq. repeat split; try done.
      do 2 eexists. rewrite Hp, Ht. done.
    + destruct (mapM _ rows0) as [rows' |] eqn:Hm; [| discriminate].
      cbn in H. simplify_eq. repeat split; try done.
      do 2 eexists. rewrite Hp, Ht. done.
Qed.

(** With a positive [size], the carpet has at most [size[0]] rows and
    [size[1]] columns, and one class per row. *)
Theorem plot_carpet_fits_size rows newsegm p_dec t_dec :
  wf func_data →
  Forall (λ series, length series = ntsteps) (data func_data) →
  (0 < sz.1)%Z → (0 < sz.2)%Z →
  plot_carpet_data func_data ntsteps atlaslabels sz lut
    = Some (rows, newsegm, p_dec, t_dec) →
  length newsegm = length rows ∧
  (Z.of_nat (length rows) ≤ sz.1)%Z ∧
  Forall (λ r, (Z.of_nat (length r) ≤ sz.2)%Z) rows.
Proof.
  intros Hwf Hseries H1 H2 Hrun.
  apply plot_carpet_data_unfold in Hrun
    as (Hsh & Hnt & _ & _ & -> & -> & segm & rows0 & Hsegm & Hp & Ht).
  pose proof (all_rows_length Hwf Hsh) as Hlen.
  pose proof seg_length as Hlen'.
  apply length_mapM in Hsegm.
  assert (Hq1 : (0 ≤ Z.of_nat (length all_rows) / sz.1)%Z)
    by (apply Z.div_pos; lia).
  assert (Hq2 : (0 ≤ Z.of_nat ntsteps / sz.2)%Z) by (apply Z.div_pos; lia).
  destruct (Z.eqb_spec (1 + Z.of_nat (length all_rows) / sz.1) 0); [lia |].
  destruct (Z.eqb_spec (1 + Z.of_nat ntsteps / sz.2) 0); [lia |].
  destruct Hp as [Hr Hs].
  assert (Hbound : ∀ m s : nat, 0 < s →
    ceil_div m (Z.to_nat (Z.abs (1 + Z.of_nat m / Z.of_nat s))) ≤ s).
  { intros m s Hs'. rewrite <- (Nat2Z.inj_div m s).
    replace (Z.to_nat (Z.abs (1 + Z.of_nat (m / s)))) with (1 + m / s) by lia.
    by apply ceil_div_decimation. }
  assert (Hrows0 : Forall (λ r, length r = ntsteps) rows0).
  { apply Forall_forall. intros r Hr'.
    eapply every_elem_of in Hr'; [| exact Hr].
    apply list_elem_of_omap in Hr' as (p & _ & Hget).
    apply getitem_elem_of in Hget.
    by eapply Forall_forall in Hseries. }
  split; [| split].
  - apply length_mapM in Ht. apply every_length in Hr, Hs.
    rewrite Hs, <- Ht, Hr. f_equal. lia.
  - apply length_mapM in Ht. apply every_length in Hr.
    specialize (Hbound (length all_rows) (Z.to_nat sz.1) ltac:(lia)).
    rewrite Z2Nat.id in Hbound by lia. lia.
  - eapply mapM_Forall; [| exact Ht | exact Hrows0].
    intros r0 r Hr0 Hev. cbn in Hr0. apply every_length in Hev.
    rewrite Hr0 in Hev.
    specialize (Hbound ntsteps (Z.to_nat sz.2) ltac:(lia)).
    rewrite Z2Nat.id in Hbound by lia. lia.
Qed.

(** A volume that fits in [size] is drawn whole: every voxel inside the
    atlas keeps its row and every frame its column. *)
Theorem plot_carpet_keeps_small rows newsegm p_dec t_dec :
  (0 < sz.1)%Z → (0 < sz.2)%Z →
  (Z.of_nat (length inside) < sz.1)%Z → (Z.of_nat ntsteps < sz.2)%Z →
  wf func_data →
  plot_carpet_data func_data ntsteps atlaslabels sz lut
    = Some (rows, newsegm, p_dec, t_dec) →
  p_dec = 1%Z ∧ t_dec = 1%Z ∧
  rows = omap (getitem func_data) inside ∧
  length newsegm = length inside.
Proof.
  intros H1 H2 Hfit1 Hfit2 Hwf Hrun.
  apply plot_carpet_data_unfold in Hrun
    as (Hsh & Hnt & _ & _ & -> & -> & segm & rows0 & Hsegm & Hp & Ht).
  pose proof (all_rows_length Hwf Hsh) as Hlen.
  rewrite Hlen in *.
  rewrite (Z.div_small (Z.of_nat (length inside))) in * by lia.
  rewrite (Z.div_small (Z.of_nat ntsteps)) in * by lia.
  change (1 + 0)%Z with 1%Z in *. change (1 =? 0)%Z with false in *.
  cbv iota in Hp, Ht.
  destruct Hp as [Hr Hs]. rewrite every_1 in Hr. rewrite every_1 in Hs. simplify_eq.
  repeat split.
  - rewrite mapM_every_1 in Ht. by simplify_eq.
  - apply length_mapM in Hsegm. rewrite <- Hsegm. apply seg_length.
Qed.

Lemma plot_carpet_data_total :
  wf func_data → shape atlaslabels = shape func_data →
  ntsteps ≠ 0 → sz.1 ≠ 0%Z → sz.2 ≠ 0%Z →
  is_Some (mapM (take_index (from_option id default_lut lut)) seg) →
  is_Some (plot_carpet_data func_data ntsteps atlaslabels sz lut).
Proof.
  intros Hwf Hsh Hnt H1 H2 [segm Hsegm].
  unfold plot_carpet_data, floordiv. fold inside. fold all_rows. fold seg.
  rewrite decide_True by done. rewrite decide_False by done.
  rewrite Hsegm. cbn.
  destruct (Z.eqb_spec sz.1 0); [done |]. cbn.
  destruct (Z.eqb_spec sz.2 0); [done |].
  assert (Hcols : ∀ rows0 : list (list Q),
    is_Some (if (1 + Z.of_nat ntsteps / sz.2 =? 0)%Z then Some rows0
             else mapM (every (1 + Z.of_nat ntsteps / sz.2)) rows0)).
  { intros rows0. destruct (Z.eqb_spec (1 + Z.of_nat ntsteps / sz.2) 0); [eauto |].
    apply mapM_is_Some_2, Forall_forall. intros r _. by apply every_is_Some. }
  destruct (Z.eqb_spec (1 + Z.of_nat (length all_rows) / sz.1) 0) as [Hp | Hp].
  - cbn. destruct (Hcols all_rows) as [rows Hrows]. rewrite Hrows. cbn. eauto.
  - destruct (every_is_Some (1 + Z.of_nat (length all_rows) / sz.1) all_rows Hp)
      as [rows0 ->].
    destruct (every_is_Some (1 + Z.of_nat (length all_rows) / sz.1) segm Hp)
      as [segm' ->].
    cbn. destruct (Hcols rows0) as [rows Hrows]. rewrite Hrows. cbn. eauto.
Qed.

End Decimation.

Lemma take_index_default_lut (label : Z) :
  (0 < label)%Z → take_index default_lut label = default_class label.
Proof.
  intros Hpos.
  destruct (Z.le_gt_cases label 255) as [Hle | Hgt].
  - assert (Hall : forallb (λ n, bool_decide
      (take_index default_lut (Z.of_nat n) = default_class (Z.of_nat n)))
      (seq 1 255) = true) by (vm_compute; reflexivity).
    rewrite forallb_forall in Hall.
    specialize (Hall (Z.to_nat label) ltac:(apply in_seq; lia)).
    rewrite Z2Nat.id in Hall by lia.
    by apply bool_decide_eq_true in Hall.
  - unfold take_index, default_class.
    replace (Z.of_nat (length default_lut)) with 256%Z by (vm_compute; reflexivity).
    repeat match goal with
    | |- context [(?a <=? ?b)%Z] => destruct (Z.leb_spec a b); try lia
    | |- context [(?a <? ?b)%Z] => destruct (Z.ltb_spec a b); try lia
    | |- context [(?a =? ?b)%Z] => destruct (Z.eqb_spec a b); try lia
    end; reflexivity.
Qed.

(** The default table sends the labels 1 to 10 to class 1, 30 to 98 to class
    3, 100 to 200 to class 4, 255 to class 2 and the other labels up to 255
    to class 0; a label above 255 is out of the table. *)
Theorem default_lut_classes (label : Z) :
  (0 < label)%Z → take_index default_lut label = default_class label.
Proof. apply take_index_default_lut. Qed.

(** With the default table, [plot_carpet] gets past the lookup exactly when
    no label of the atlas is above 255. *)
Theorem plot_carpet_default_lut_range (func_data : ndarray (list Q))
    (ntsteps : nat) (atlaslabels : ndarray Z) (sz : Z * Z) :
  wf func_data → wf atlaslabels → shape atlaslabels = shape func_data →
  ntsteps ≠ 0 → sz.1 ≠ 0%Z → sz.2 ≠ 0%Z →
  is_Some (plot_carpet_data func_data ntsteps atlaslabels sz None) ↔
  Forall (λ label, (label ≤ 255)%Z) (data atlaslabels).
Proof.
  intros Hwf Hwfa Hsh Hnt H1 H2. split.
  - intros [[[[rows newsegm] p_dec] t_dec] Hrun].
    apply plot_carpet_data_unfold in Hrun
      as (_ & _ & _ & _ & _ & _ & segm & _ & Hsegm & _).
    cbn in Hsegm.
    assert (Hs : is_Some (mapM (take_index default_lut)
      (omap (getitem atlaslabels) (argwhere (λ x, 0 <? x)%Z atlaslabels)))) by eauto.
    apply mapM_is_Some_1 in Hs. rewrite Forall_forall in Hs.
    apply Forall_forall. intros label Hin.
    destruct (Z.le_gt_cases label 0) as [? | Hpos]; [lia |].
    specialize (Hs label ltac:(by apply elem_of_seg)). cbn in Hs.
    rewrite take_index_default_lut in Hs by done.
    destruct (Z.le_gt_cases label 255) as [? | Hgt]; [done |].
    exfalso. unfold default_class in Hs.
    repeat match type of Hs with
    | context [(?a <=? ?b)%Z] => destruct (Z.leb_spec a b); try lia
    | context [(?a =? ?b)%Z] => destruct (Z.eqb_spec a b); try lia
    end; cbn in Hs; by destruct Hs.
  - intros Hall. apply plot_carpet_data_total; try done. cbn.
    apply mapM_is_Some_2, Forall_forall. intros label Hin. cbn.
    apply elem_of_seg in Hin as [Hin Hpos]; [| done].
    rewrite Forall_forall in Hall. specialize (Hall label Hin).
    rewrite take_index_default_lut by done. unfold default_class.
    repeat match goal with
    | |- context [(?a <=? ?b)%Z] => destruct (Z.leb_spec a b); try lia
    | |- context [(?a =? ?b)%Z] => destruct (Z.eqb_spec a b); try lia
    end; cbn; eauto.
Qed.

(** A summary plot without segmentation draws the voxels of a mask of
    zeros and ones in one class, the class 1 of the default table. *)
Theorem seg_data_mask_one_class (func_data : ndarray (list Q)) (ntsteps : nat)
    (mask_data : ndarray Z) (sz : Z * Z) rows newsegm p_dec t_dec :
  wf mask_data → binary_volume mask_data →
  plot_carpet_data func_data ntsteps (seg_data mask_data None) sz None
    = Some (rows, newsegm, p_dec, t_dec) →
  Forall (λ class, class = 1%Z) newsegm.
Proof.
  intros Hwf Hbin Hrun.
  apply plot_carpet_data_unfold in Hrun
    as (_ & _ & _ & _ & _ & _ & segm & rows0 & Hsegm & Hp & _).
  cbn in Hsegm.
  assert (Hseg : Forall (λ class, class = 1%Z) segm).
  { eapply mapM_Forall with (P := λ label, label = 2%Z); [| exact Hsegm |].
    - intros label class -> Hclass. vm_compute in Hclass. congruence.
    - apply Forall_forall. intros label Hin.
      apply elem_of_seg in Hin as [Hin Hpos]; [| by apply wf_amap].
      cbn in Hin. apply list_elem_of_fmap in Hin as (x & -> & Hx).
      unfold binary_volume in Hbin. rewrite Forall_forall in Hbin.
      destruct (Hbin x Hx) as [-> | ->]; [done | reflexivity]. }
  destruct (p_dec =? 0)%Z.
  - destruct Hp as [_ ->]. exact Hseg.
  - destruct Hp as [_ Hs]. apply Forall_forall. intros class Hin.
    eapply every_elem_of in Hin; [| exact Hs].
    rewrite Forall_forall in Hseg. by apply Hseg.
Qed.

Lemma ticks_length (k n : nat) : 0 < k → length (ticks k n) = ceil_div n k.
Proof.
  intros Hk. unfold ticks.
  destruct (every_is_Some (Z.of_nat k) (seq 0 n) ltac:(lia)) as [l Hl].
  rewrite Hl. cbn. apply every_length in Hl.
  rewrite Hl, length_seq. f_equal. lia.
Qed.

(** Whatever the number of frames, [plot_carpet] sets at most 8 ticks on the
    time axis and [confoundplot] at most 9, all of them frames of the
    series. *)
Theorem xticks_bounded (n : nat) :
  length (carpet_xticks n) ≤ 8 ∧ length (confound_xticks n) ≤ 9 ∧
  (∀ t, t ∈ carpet_xticks n ∨ t ∈ confound_xticks n → t < n).
Proof.
  assert (Hpos : ∀ m, 0 < tick_interval m) by (intros m; unfold tick_interval; lia).
  split; [| split].
  - unfold carpet_xticks. rewrite ticks_length by apply Hpos.
    unfold ceil_div, tick_interval.
    pose proof (Nat.div_mod_eq (n + 1) 5) as H5.
    pose proof (Nat.mod_upper_bound (n + 1) 5 ltac:(lia)) as H5'.
    pose proof (Nat.div_mod_eq (n + 1) 10) as H10.
    pose proof (Nat.mod_upper_bound (n + 1) 10 ltac:(lia)) as H10'.
    apply Nat.lt_succ_r, Nat.Div0.div_lt_upper_bound. nia.
  - unfold confound_xticks. rewrite ticks_length by apply Hpos.
    unfold ceil_div, tick_interval.
    pose proof (Nat.div_mod_eq n 5) as H5.
    pose proof (Nat.mod_upper_bound n 5 ltac:(lia)) as H5'.
    pose proof (Nat.div_mod_eq n 10) as H10.
    pose proof (Nat.mod_upper_bound n 10 ltac:(lia)) as H10'.
    apply Nat.lt_succ_r, Nat.Div0.div_lt_upper_bound. nia.
  - assert (Hin : ∀ k t, 0 < k → t ∈ ticks k n → t < n).
    { intros k t Hk Ht. unfold ticks in Ht.
      destruct (every_is_Some (Z.of_nat k) (seq 0 n) ltac:(lia)) as [l Hl].
      rewrite Hl in Ht. cbn in Ht.
      eapply every_elem_of in Ht; [| exact Hl].
      apply elem_of_seq in Ht. lia. }
    intros t [Ht | Ht]; eapply Hin; try exact Ht; apply Hpos.
Qed.

End CarpetFacts.

Lemma plot_carpet_small_decimated :
  Carpet.plot_carpet_data Carpet.small_func 3 Carpet.small_atlas (2, 2)%Z None
  = Some ([[1; 3]; [10; 12]]%Q, [1; 2]%Z, 2%Z, 2%Z).
Proof. vm_compute. reflexivity. Qed.

Lemma plot_carpet_small_whole :
  Carpet.plot_carpet_data Carpet.small_func 3 Carpet.small_atlas (950, 800)%Z None
  = Some ([[1; 2; 3]; [4; 5; 6]; [10; 11; 12]]%Q, [1; 3; 2]%Z, 1%Z, 1%Z).
Proof. vm_compute. reflexivity. Qed.

Lemma plot_carpet_fits_size_witness :
  length [1; 2]%Z = length [[1; 3]; [10; 12]]%Q
  ∧ (Z.of_nat (length [[1; 3]; [10; 12]]%Q) ≤ 2)%Z
  ∧ Forall (λ r : list Q, (Z.of_nat (length r) ≤ 2)%Z) [[1; 3]; [10; 12]]%Q.
Proof.
  apply (plot_carpet_fits_size Carpet.small_func 3 Carpet.small_atlas (2, 2)%Z None
           _ _ 2%Z 2%Z).
  - reflexivity.
  - repeat constructor.
  - reflexivity.
  - reflexivity.
  - exact plot_carpet_small_decimated.
Defined.

Lemma plot_carpet_keeps_small_witness :
  [[1; 2; 3]; [4; 5; 6]; [10; 11; 12]]%Q
  = omap (getitem Carpet.small_func) (argwhere (λ x, 0 <? x)%Z Carpet.small_atlas).
Proof.
  refine (proj1 (proj2 (proj2
    (plot_carpet_keeps_small Carpet.small_func 3 Carpet.small_atlas (950, 800)%Z None
       _ _ 1%Z 1%Z _ _ _ _ _ plot_carpet_small_whole)))); reflexivity.
Defined.

Lemma default_lut_classes_witness :
  Carpet.take_index Carpet.default_lut 42 = Some 3%Z.
Proof. exact (default_lut_classes 42 eq_refl). Defined.

Lemma seg_data_mask_one_class_witness :
  Forall (λ class, class = 1%Z) [1; 1; 1]%Z.
Proof.
  apply (seg_data_mask_one_class Carpet.small_func 3 Carpet.small_mask (950, 800)%Z
           [[1; 2; 3]; [7; 8; 9]; [10; 11; 12]]%Q [1; 1; 1]%Z 1%Z 1%Z).
  - reflexivity.
  - unfold binary_volume. cbn. repeat (constructor; [auto |]). constructor.
  - vm_compute. reflexivity.
Defined.

Lemma plot_carpet_default_lut_range_witness :
  is_Some (Carpet.plot_carpet_data Carpet.small_func 3 Carpet.small_atlas
             (950, 800)%Z None).
Proof.
  apply (plot_carpet_default_lut_range Carpet.small_func 3 Carpet.small_atlas
           (950, 800)%Z); try reflexivity; try discriminate.
  repeat constructor; discriminate.
Defined.

(** ** The Y limits of [confoundplot] *)

Section ConfoundFacts.
Import Confound.

Lemma foldl_Qmin_le (x : Q) (a : list Q) :
  (foldl Qmin x a <= x)%Q ∧ Forall (λ v, foldl Qmin x a <= v)%Q a.
Proof.
  revert x. induction a as [| y a IH]; intros x; cbn.
  - split; [apply Qle_refl | constructor].
  - destruct (IH (Qmin x y)) as [H1 H2]. split; [| constructor].
    + eapply Qle_trans; [exact H1 | apply Q.le_min_l].
    + eapply Qle_trans; [exact H1 | apply Q.le_min_r].
    + exact H2.
Qed.

Lemma foldl_Qmax_ge (x : Q) (a : list Q) :
  (x <= foldl Qmax x a)%Q ∧ Forall (λ v, v <= foldl Qmax x a)%Q a.
Proof.
  revert x. induction a as [| y a IH]; intros x; cbn.
  - split; [apply Qle_refl | constructor].
  - destruct (IH (Qmax x y)) as [H1 H2]. split; [| constructor].
    + eapply Qle_trans; [apply Q.le_max_l | exact H1].
    + eapply Qle_trans; [apply Q.le_max_r | exact H1].
    + exact H2.
Qed.

Lemma foldl_Qmax_elem (x : Q) (a : list Q) :
  ∃ u, u ∈ x :: a ∧ (foldl Qmax x a == u)%Q.
Proof.
  revert x. induction a as [| y a IH]; intros x; cbn.
  - exists x. split; [left | reflexivity].
  - destruct (IH (Qmax x y)) as (u & Hu & Heq).
    apply elem_of_cons in Hu as [-> | Hu].
    + destruct (Q.max_spec x y) as [[_ Hm] | [_ Hm]].
      * exists y. split; [right; left | by rewrite Heq].
      * exists x. split; [left | by rewrite Heq].
    + exists u. split; [by do 2 right | done].
Qed.

Lemma amin_le (a : list Q) (lo : Q) :
  amin a = Some lo → Forall (λ v, lo <= v)%Q a.
Proof.
  destruct a as [| x a]; [done |]. intros [= <-].
  destruct (foldl_Qmin_le x a). by constructor.
Qed.

Lemma amax_ge (a : list Q) (hi : Q) :
  amax a = Some hi → Forall (λ v, v <= hi)%Q a.
Proof.
  destruct a as [| x a]; [done |]. intros [= <-].
  destruct (foldl_Qmax_ge x a). by constructor.
Qed.

Lemma amax_elem (a : list Q) (hi : Q) :
  amax a = Some hi → ∃ u, u ∈ a ∧ (hi == u)%Q.
Proof.
  destruct a as [| x a]; [done |]. intros [= <-]. apply foldl_Qmax_elem.
Qed.

Lemma def_ylims_unfold tseries ylims bottom top :
  def_ylims tseries ylims = Some (bottom, top) →
  ∃ lo hi, amin (not_nan tseries) = Some lo ∧ amax (not_nan tseries) = Some hi ∧
    (bottom <= lo - (1 # 10) * Qabs lo)%Q ∧ ((11 # 10) * hi <= top)%Q ∧
    (ylims = None ∨ (∃ y0, ylims = Some (y0, None)) →
      top = ((11 # 10) * hi)%Q) ∧
    (∀ y0 y1, ylims = Some (y0, y1) →
      (∀ y, y0 = Some y → bottom <= y)%Q ∧ (∀ y, y1 = Some y → y <= top)%Q).
Proof.
  unfold def_ylims. intros H.
  destruct (amin _) as [lo |]; [| done].
  destruct (amax _) as [hi |]; [| done]. cbn in H.
  exists lo, hi. do 2 (split; [done |]).
  destruct ylims as [[[y0 |] [y1 |]] |]; cbn in H; simplify_eq;
    (split; [first [apply Q.le_min_l | apply Qle_refl] |]);
    (split; [first [apply Q.le_max_l | apply Qle_refl] |]);
    (split; [intros [? | [? ?]]; by simplify_eq |]);
    intros ? ? ?; simplify_eq; split; intros ? ?; simplify_eq;
    first [apply Q.le_min_r | apply Q.le_max_r].
Qed.

(** No sample of the series lies under the lower limit, the limits include
    the [ylims] that are given, and when some sample is not negative no
    sample lies above the upper limit. *)
Theorem def_ylims_contain tseries ylims bottom top :
  def_ylims tseries ylims = Some (bottom, top) →
  (∀ v, Some v ∈ tseries → bottom <= v)%Q ∧
  (∀ y0 y1, ylims = Some (y0, y1) →
    (∀ y, y0 = Some y → bottom <= y)%Q ∧ (∀ y, y1 = Some y → y <= top)%Q) ∧
  ((∃ u, Some u ∈ tseries ∧ 0 <= u)%Q → ∀ v, Some v ∈ tseries → (v <= top)%Q).
Proof.
  intros (lo & hi & Hlo & Hhi & Hb & Ht & _ & Hy)%def_ylims_unfold.
  apply amin_le in Hlo. apply amax_ge in Hhi.
  rewrite Forall_forall in Hlo, Hhi.
  assert (Hin : ∀ v, Some v ∈ tseries → v ∈ not_nan tseries).
  { intros v Hv. apply list_elem_of_omap. by exists (Some v). }
  split; [| split; [exact Hy |]].
  - intros v Hv%Hin. specialize (Hlo v Hv).
    pose proof (Qabs_nonneg lo). lra.
  - intros (u & Hu%Hin & Hpos) v Hv%Hin.
    pose proof (Hhi u Hu). specialize (Hhi v Hv). lra.
Qed.

(** When every sample is negative and no upper [ylims] is given, the upper
    limit lies under the largest sample. *)
Theorem def_ylims_negative tseries ylims bottom top :
  def_ylims tseries ylims = Some (bottom, top) →
  (ylims = None ∨ ∃ y0, ylims = Some (y0, None)) →
  (∀ v, Some v ∈ tseries → v < 0)%Q →
  ∃ u, Some u ∈ tseries ∧ (top < u)%Q.
Proof.
  intros (lo & hi & _ & Hhi & _ & _ & Htop & _)%def_ylims_unfold Hnone Hneg.
  rewrite (Htop Hnone).
  apply amax_elem in Hhi as (u & Hu & Heq).
  apply list_elem_of_omap in Hu as ([w |] & Hw & Hid); cbn in Hid; simplify_eq.
  exists u. split; [done |]. specialize (Hneg u Hw). rewrite Heq. lra.
Qed.

End ConfoundFacts.

Lemma def_ylims_contain_witness :
  Confound.def_ylims Confound.drift None = Some (-22 # 10, 33 # 10)%Q
  ∧ ∀ v, Some v ∈ Confound.drift → (-22 # 10 <= v)%Q ∧ (v <= 33 # 10)%Q.
Proof.
  assert (Hrun : Confound.def_ylims Confound.drift None = Some (-22 # 10, 33 # 10)%Q)
    by (vm_compute; reflexivity).
  split; [exact Hrun |].
  destruct (def_ylims_contain _ _ _ _ Hrun) as (Hlow & _ & Hhigh).
  intros v Hv. split; [exact (Hlow v Hv) |].
  apply Hhigh; [| exact Hv].
  exists 3%Q. split; [| discriminate].
  do 2 right. left.
Defined.

Lemma def_ylims_negative_witness :
  ∃ u, Some u ∈ Confound.sunk ∧ (-11 # 10 < u)%Q.
Proof.
  apply (def_ylims_negative Confound.sunk None (-22 # 10)%Q (-11 # 10)%Q).
  - vm_compute. reflexivity.
  - left. reflexivity.
  - intros v Hv. unfold Confound.sunk in Hv.
    repeat (apply elem_of_cons in Hv as [Hv | Hv];
            [injection Hv as ->; reflexivity |]).
    by apply elem_of_nil in Hv.
Defined.
